(** * ice-tcp: candidate statistics, pair priority and the signaling handler

    A shallow embedding of [examples/ice-tcp/main.go]: the snapshot of
    candidate statistics ([newSetCandidateStats]), the candidate lookup
    ([getCandidateStats]), the pair priority ([getPriority]), the report
    builder ([getSetCandidates]) and the HTTP handler ([doSignaling])
    with its callbacks and the JSON decoder it reads the request with.

    Go values are modelled as follows.
    - [int32], [uint64]: [Z], with the range written out where it matters.
    - [float64]: the IEEE 754 binary64 floats of the Standard Library
      ([SpecFloat], precision 53, maximal exponent 1024), with its
      multiplication and addition (round to nearest, ties to even).
    - [string]: [string]; [[]byte]: [list Byte.byte].
    - [interface{}]: the inductive [iface] of the dynamic values the
      program stores in one.
    - slices: [list]; [append s x] is [s ++ [x]]. *)

From Stdlib Require Import ZArith Lia Bool String.
From Stdlib Require Import SpecFloat.
From stdpp Require Import base list strings gmap.

Local Open Scope Z_scope.

(** ** binary64 arithmetic *)

Module Float64.

Definition float64 : Type := spec_float.

Definition prec : Z := 53.
Definition emax : Z := 1024.

(** The float nearest to an integer: [float64(i)] for an [int32] value
    [i], and the value of an integer constant in a [float64] expression
    (both conversions are exact, the integers being below [2^53]). *)
Definition of_Z (i : Z) : float64 := binary_normalize prec emax i 0 false.

Definition mul (x y : float64) : float64 := SFmul prec emax x y.
Definition add (x y : float64) : float64 := SFadd prec emax x y.

(** [x*y + z] with a single rounding, as a fused multiply-add computes
    it: the exact product and [z] are brought to a common exponent, added
    as integers and rounded once.  When the product is not the product of
    two finite non-zero floats it is exact, and the sum is [add]'s. *)
Definition fma (x y z : float64) : float64 :=
  match x, y, z with
  | S754_finite sx mx ex, S754_finite sy my ey, S754_finite sz mz ez =>
      let ep := ex + ey in
      let e := Z.min ep ez in
      binary_normalize prec emax
        (cond_Zopp (xorb sx sy) (Z.pos (fst (shl_align (mx * my) ep e)))
         + cond_Zopp sz (Z.pos (fst (shl_align mz ez e))))
        e false
  | _, _, _ => add (mul x y) z
  end.

(** [math.Min]: [-Inf] if either argument is, else [NaN] if either
    argument is, else the negative zero of two zeros, else
    [if x < y { return x }; return y]. *)
Definition Min (x y : float64) : float64 :=
  match x, y with
  | S754_infinity true, _ | _, S754_infinity true => S754_infinity true
  | S754_nan, _ | _, S754_nan => S754_nan
  | S754_zero sx, S754_zero _ => if sx then x else y
  | _, _ => if SFltb x y then x else y
  end.

(** [math.Max]: [+Inf] if either argument is, else [NaN] if either
    argument is, else the positive zero of two zeros, else
    [if x > y { return x }; return y]. *)
Definition Max (x y : float64) : float64 :=
  match x, y with
  | S754_infinity false, _ | _, S754_infinity false => S754_infinity false
  | S754_nan, _ | _, S754_nan => S754_nan
  | S754_zero sx, S754_zero _ => if sx then y else x
  | _, _ => if SFltb y x then x else y
  end.

(** The integer part of a finite float (the fraction is discarded). *)
Definition trunc (f : float64) : option Z :=
  match f with
  | S754_zero _ => Some 0
  | S754_finite s m e =>
      Some (cond_Zopp s (if 0 <=? e then Z.pos m * 2 ^ e
                         else Z.pos m / 2 ^ (- e)))
  | _ => None
  end.

(** *** Rounding of integers, for the proofs *)

(** Nearest multiple of [2^s] to the non-negative integer [x], ties to
    the multiple whose quotient is even. *)
Definition round_shift (x s : Z) : Z :=
  let q := x / 2 ^ s in
  let r := x mod 2 ^ s in
  let half := 2 ^ (s - 1) in
  if (r <? half) || ((r =? half) && Z.even q)
  then q * 2 ^ s
  else (q + 1) * 2 ^ s.

(** Nearest integer with at most 53 significant bits to the non-negative
    integer [x]. *)
Definition round (x : Z) : Z :=
  if x <? 2 ^ 53 then x else round_shift x (Z.log2 x - 52).

(** The float [f] is the normal representation of the non-negative
    integer [v]. *)
Definition denotes (f : float64) (v : Z) : Prop :=
  match f with
  | S754_zero false => v = 0
  | S754_finite false m e =>
      0 < v /\ Z.log2 (Z.pos m) = 52
      /\ Z.pos m * 2 ^ Z.max e 0 = v * 2 ^ Z.max (- e) 0
  | _ => False
  end.

(** The second half of [binary_round_aux]: the rounded mantissa is
    brought back to 53 bits. *)
Definition renormalize (m e : Z) : float64 :=
  let '(mrs, e') := shr_fexp prec emax m e loc_Exact in
  match shr_m mrs with
  | Z0 => S754_zero false
  | Zpos m =>
      if e' <=? emax - prec then S754_finite false m e'
      else S754_infinity false
  | _ => S754_nan
  end.

End Float64.

(** ** Data model *)

(** Modelled from the spec: [webrtc.ICECandidateStats] is declared in the
    transport library; the fields are those the program reads (spec §3,
    CandidateRecord).  [Priority] and [Port] are [int32]. *)
Record ICECandidateStats := {
  ID : string;
  NetworkType : Z;
  Protocol : string;
  CandidateType : Z;
  IP : string;
  Port : Z;
  RelayProtocol : string;
  Priority : Z
}.

(** The Go zero value [webrtc.ICECandidateStats{}]. *)
Definition ICECandidateStats_zero : ICECandidateStats :=
  {| ID := ""; NetworkType := 0; Protocol := ""; CandidateType := 0;
     IP := ""; Port := 0; RelayProtocol := ""; Priority := 0 |}.

(** Modelled from the spec: [webrtc.ICECandidatePairStats], the fields the
    program reads. *)
Record ICECandidatePairStats := {
  Nominated : bool;
  LocalCandidateID : string;
  RemoteCandidateID : string
}.

(** The dynamic type of an entry of the statistics report: the two kinds
    the type switch names, and every other kind. *)
Inductive Stats :=
| PairStats (t : ICECandidatePairStats)
| CandidateStats (t : ICECandidateStats)
| OtherStats (kind : string).

Record candidatePair := {
  localID : string;
  remoteID : string
}.

Record setCandidateStats := {
  candidates : list ICECandidateStats;
  nominatedCandidatePairs : list candidatePair
}.

(** Values stored in an [interface{}] by the report builder. *)
#[local] Set Warnings "-register-all".
Inductive iface :=
| INil
| IUint64 (v : Z)
| IInt32 (v : Z)
| INetworkType (v : Z)
| ICandidateType (v : Z)
| IString (s : string)
| ISlice (vs : list iface).

(** ** Snapshot, lookup, priority, reports *)

(** One iteration of the loop of [newSetCandidateStats]; the state is
    [(nominatedCandidatePairs, candidates)]. *)
Definition newSetCandidateStats_step
    (acc : list candidatePair * list ICECandidateStats) (v : Stats)
    : list candidatePair * list ICECandidateStats :=
  let '(nominated, cands) := acc in
  match v with
  | PairStats t =>
      if Nominated t
      then (nominated ++ [ {| localID := LocalCandidateID t;
                              remoteID := RemoteCandidateID t |} ], cands)
      else (nominated, cands)
  | CandidateStats t => (nominated, cands ++ [t])
  | OtherStats _ => (nominated, cands)
  end.

(** [newSetCandidateStats]: [stats] is the sequence of values that
    [range pc.GetStats()] yields, in the order it yields them. *)
Definition newSetCandidateStats (stats : list Stats) : setCandidateStats :=
  let '(nominated, cands) :=
    fold_left newSetCandidateStats_step stats ([], []) in
  {| candidates := cands; nominatedCandidatePairs := nominated |}.

Fixpoint getCandidateStats_loop (cs : list ICECandidateStats) (id : string)
    : ICECandidateStats :=
  match cs with
  | [] => ICECandidateStats_zero
  | c :: cs' =>
      if String.eqb (ID c) id then c else getCandidateStats_loop cs' id
  end.

Definition getCandidateStats (scs : setCandidateStats) (id : string)
    : ICECandidateStats :=
  getCandidateStats_loop (candidates scs) id.

Section Platform.

(** What the Go specification leaves to the implementation:
    whether [x*y + z] is fused, and the result of converting a float
    that [uint64] cannot represent. *)
Variable fused : bool.
Variable uint64_out_of_range : Float64.float64 -> Z.

(** [uint64(f)]: the integer part of [f] when [uint64] has it. *)
Definition uint64_of_float64 (f : Float64.float64) : Z :=
  match Float64.trunc f with
  | Some z => if (0 <=? z) && (z <? 2 ^ 64) then z else uint64_out_of_range f
  | None => uint64_out_of_range f
  end.

(** The [float64] expression
    [(1<<32-1)*math.Min(float64(rp), float64(lp))
     + 2*math.Max(float64(rp), float64(lp))]. *)
Definition getPriority_float (lp rp : Z) : Float64.float64 :=
  let lo := Float64.Min (Float64.of_Z rp) (Float64.of_Z lp) in
  let hi := Float64.Max (Float64.of_Z rp) (Float64.of_Z lp) in
  if fused
  then Float64.fma (Float64.of_Z (2 ^ 32 - 1)) lo
                   (Float64.mul (Float64.of_Z 2) hi)
  else Float64.add (Float64.mul (Float64.of_Z (2 ^ 32 - 1)) lo)
                   (Float64.mul (Float64.of_Z 2) hi).

(** [getPriority]: the expression above converted to [uint64]. *)
Definition getPriority (scs : setCandidateStats) (lp rp : Z) : Z :=
  uint64_of_float64 (getPriority_float lp rp).

(** The [[]interface{}{priority, ...}] literal appended for one pair. *)
Definition report (scs : setCandidateStats) (ncp : candidatePair) : iface :=
  let localCandidate := getCandidateStats scs (localID ncp) in
  let remoteCandidate := getCandidateStats scs (remoteID ncp) in
  let priority :=
    getPriority scs (Priority localCandidate) (Priority remoteCandidate) in
  ISlice
    [ IUint64 priority;
      INetworkType (NetworkType localCandidate);
      IString (Protocol localCandidate);
      ICandidateType (CandidateType localCandidate);
      IString (IP localCandidate);
      IInt32 (Port localCandidate);
      IString (RelayProtocol localCandidate);
      INetworkType (NetworkType remoteCandidate);
      IString (Protocol remoteCandidate);
      ICandidateType (CandidateType remoteCandidate);
      IString (IP remoteCandidate);
      IInt32 (Port remoteCandidate);
      IString (RelayProtocol remoteCandidate) ].

(** [getSetCandidates]: [make([]interface{}, n)] is a slice of [n] nil
    values; the loop appends one report per nominated pair.  (The
    [fmt.Printf] of each pair writes to the console only and is left
    out.) *)
Definition getSetCandidates (scs : setCandidateStats) : list iface :=
  let setCandidates :=
    replicate (length (nominatedCandidatePairs scs)) INil in
  fold_left (fun acc ncp => acc ++ [report scs ncp])
            (nominatedCandidatePairs scs) setCandidates.

End Platform.

(** [uint64(f)] for a float outside the range of [uint64] where the
    conversion saturates (as the arm64 instruction does): zero for a
    negative float and for [NaN], the largest value for a positive one. *)
Definition uint64_saturating (f : Float64.float64) : Z :=
  match f with
  | S754_infinity false | S754_finite false _ _ => 2 ^ 64 - 1
  | _ => 0
  end.

(** [int32(u)] for a [uint32] value [u], the conversion by which an
    unsigned 32-bit priority reaches the [int32] parameters of
    [getPriority]: the same 32 bits, read in two's complement. *)
Definition int32_of_uint32 (u : Z) : Z :=
  if u <? 2 ^ 31 then u else u - 2 ^ 32.

(** The value of [getPriority_float] on non-negative [int32] arguments,
    with the roundings written over the integers. *)
Definition getPriority_value (fused : bool) (lp rp : Z) : Z :=
  let lo := Z.min lp rp in
  let hi := Z.max lp rp in
  if fused
  then Float64.round ((2 ^ 32 - 1) * lo + Float64.round (2 * hi))
  else Float64.round (Float64.round ((2 ^ 32 - 1) * lo)
                      + Float64.round (2 * hi)).

Definition snapshot_empty : setCandidateStats :=
  {| candidates := []; nominatedCandidatePairs := [] |}.

(** The reports among the values of a slice returned by
    [getSetCandidates]. *)
Definition reports_of (vs : list iface) : list (list iface) :=
  omap (fun v => match v with ISlice r => Some r | _ => None end) vs.

(** The snapshot of the scenario of spec §8: candidates [L1] of priority
    100 and [R1] of priority 200, and the nominated pair [(L1, R1)]. *)
Definition scenario_snapshot : setCandidateStats :=
  {| candidates :=
       [ {| ID := "L1"; NetworkType := 0; Protocol := "";
            CandidateType := 0; IP := ""; Port := 0;
            RelayProtocol := ""; Priority := 100 |};
         {| ID := "R1"; NetworkType := 0; Protocol := "";
            CandidateType := 0; IP := ""; Port := 0;
            RelayProtocol := ""; Priority := 200 |} ];
     nominatedCandidatePairs := [ {| localID := "L1"; remoteID := "R1" |} ] |}.

(** ** The specification's words, for comparison *)

(** Spec §4.3: [(2^32 - 1) * lo + 2 * hi] with [lo], [hi] the smaller and
    the larger argument, over the integers. *)
Definition priority_formula (local remote : Z) : Z :=
  (2 ^ 32 - 1) * Z.min local remote + 2 * Z.max local remote.

(** Spec §4.1: the candidate records of a statistics collection, in its
    order. *)
Definition candidate_records (stats : list Stats) : list ICECandidateStats :=
  omap (fun v => match v with CandidateStats t => Some t | _ => None end) stats.

(** Spec §4.1: the pairs flagged nominated, in the collection's order. *)
Definition nominated_pairs (stats : list Stats) : list candidatePair :=
  omap (fun v =>
          match v with
          | PairStats t =>
              if Nominated t
              then Some {| localID := LocalCandidateID t;
                           remoteID := RemoteCandidateID t |}
              else None
          | _ => None
          end) stats.

(** ** The signaling handler *)

Definition bytes := list Byte.byte.

(** [http.ResponseWriter] as the handler sees it: the header map and the
    bytes of the body written so far. *)
Record ResponseWriter := {
  header : gmap string (list string);
  body : bytes
}.

Definition ResponseWriter_new : ResponseWriter :=
  {| header := ∅; body := [] |}.

(** The collaborators of the handler (spec §6): the transport stack, the
    JSON codec and the connection under the response writer.  A method
    that returns [error] in Go returns [option error] here, one that
    returns [(T, error)] returns [T + error]; a method of the session
    object also returns the object's new state. *)
Class Collaborators := {
  error : Type;
  SessionDescription : Type;
  PeerConnection : Type;
  api_NewPeerConnection : PeerConnection + error;
  pc_OnICEConnectionStateChange : PeerConnection -> PeerConnection;
  pc_OnDataChannel : PeerConnection -> PeerConnection;
  json_Decode : bytes -> SessionDescription + error;
  pc_SetRemoteDescription :
    PeerConnection -> SessionDescription -> PeerConnection * option error;
  webrtc_GatheringCompletePromise : PeerConnection -> PeerConnection;
  pc_CreateAnswer :
    PeerConnection -> PeerConnection * (SessionDescription + error);
  pc_SetLocalDescription :
    PeerConnection -> SessionDescription -> PeerConnection * option error;
  (** [<-gatherComplete]: the state of the session when the receive
      returns, [None] when the channel is never closed. *)
  gatherComplete_recv : PeerConnection -> option PeerConnection;
  pc_LocalDescription : PeerConnection -> SessionDescription;
  json_Marshal : SessionDescription -> bytes + error;
  (** [w.Write(p)]: the number of bytes written and the error. *)
  conn_Write : bytes -> nat * option error
}.

(** The calls of [doSignaling], in a trace of the calls that returned. *)
Inductive Call :=
| CNewPeerConnection | COnICEConnectionStateChange | COnDataChannel
| CDecode | CSetRemoteDescription | CGatheringCompletePromise
| CCreateAnswer | CSetLocalDescription | CRecvGatherComplete
| CLocalDescription | CMarshal | CHeaderSet | CWrite.

(** [Ev c ok]: the call [c] returned, without an error iff [ok]. *)
Inductive Event := Ev (c : Call) (ok : bool).

#[global] Instance Call_eq_dec : EqDecision Call.
Proof. solve_decision. Defined.
#[global] Instance Event_eq_dec : EqDecision Event.
Proof. solve_decision. Defined.

Record HandlerState := {
  st_w : ResponseWriter;
  st_trace : list Event
}.

Definition HandlerState_init : HandlerState :=
  {| st_w := ResponseWriter_new; st_trace := [] |}.

Section Handler.

Context `{C : Collaborators}.

(** How a run of the handler ends: it returns, it panics, or it stays
    parked on the channel receive. *)
Inductive Result (A : Type) :=
| Returned (a : A) (s : HandlerState)
| Panicked (e : error) (s : HandlerState)
| Parked (s : HandlerState).
Global Arguments Returned {A} a s.
Global Arguments Panicked {A} e s.
Global Arguments Parked {A} s.

Definition Handler (A : Type) : Type := HandlerState -> Result A.

Global Instance Handler_ret : MRet Handler := fun A a s => Returned a s.
Global Instance Handler_bind : MBind Handler := fun A B f m s =>
  match m s with
  | Returned a s' => f a s'
  | Panicked e s' => Panicked e s'
  | Parked s' => Parked s'
  end.

Definition final_state {A} (r : Result A) : HandlerState :=
  match r with
  | Returned _ s | Panicked _ s | Parked s => s
  end.

Definition log (c : Call) (ok : bool) : Handler unit := fun s =>
  Returned () {| st_w := st_w s; st_trace := st_trace s ++ [Ev c ok] |}.

Definition panic {A} (e : error) : Handler A := fun s => Panicked e s.

Definition park {A} : Handler A := fun s => Parked s.

(** [x, err := f(); if err != nil { panic(err) }] *)
Definition call_or_panic {A} (c : Call) (r : A + error) : Handler A :=
  match r with
  | inl a => log c true;; mret a
  | inr e => log c false;; panic e
  end.

(** [if err = f(); err != nil { panic(err) }] *)
Definition check_or_panic {A} (c : Call) (r : A * option error) : Handler A :=
  match r.2 with
  | None => log c true;; mret r.1
  | Some e => log c false;; panic e
  end.

Definition Header_Set (k v : string) : Handler unit := fun s =>
  Returned ()
    {| st_w := {| header := <[k := [v]]> (header (st_w s));
                  body := body (st_w s) |};
       st_trace := st_trace s ++ [Ev CHeaderSet true] |}.

Definition Write (p : bytes) : Handler nat := fun s =>
  let '(n, err) := conn_Write p in
  let s' := {| st_w := {| header := header (st_w s);
                          body := body (st_w s) ++ take n p |};
               st_trace :=
                 st_trace s ++ [Ev CWrite (bool_decide (err = None))] |} in
  match err with
  | None => Returned n s'
  | Some e => Panicked e s'
  end.

Definition recv_gatherComplete (pc : PeerConnection) : Handler PeerConnection :=
  match gatherComplete_recv pc with
  | Some pc' => log CRecvGatherComplete true;; mret pc'
  | None => park
  end.

(** [doSignaling(w, r)]; [r_Body] is the request body.  The two
    callbacks are only registered here: they run later, on the
    transport's goroutines, and never touch [w]. *)
Definition doSignaling (r_Body : bytes) : Handler unit :=
  peerConnection ← call_or_panic CNewPeerConnection api_NewPeerConnection;
  log COnICEConnectionStateChange true;;
  let peerConnection := pc_OnICEConnectionStateChange peerConnection in
  log COnDataChannel true;;
  let peerConnection := pc_OnDataChannel peerConnection in
  offer ← call_or_panic CDecode (json_Decode r_Body);
  peerConnection ←
    check_or_panic CSetRemoteDescription
      (pc_SetRemoteDescription peerConnection offer);
  log CGatheringCompletePromise true;;
  let peerConnection := webrtc_GatheringCompletePromise peerConnection in
  let '(peerConnection, answer) := pc_CreateAnswer peerConnection in
  answer ← call_or_panic CCreateAnswer answer;
  peerConnection ←
    check_or_panic CSetLocalDescription
      (pc_SetLocalDescription peerConnection answer);
  peerConnection ← recv_gatherComplete peerConnection;
  log CLocalDescription true;;
  response ←
    call_or_panic CMarshal (json_Marshal (pc_LocalDescription peerConnection));
  Header_Set "Content-Type" "application/json";;
  _ ← Write response;
  mret ().

Definition serve (r_Body : bytes) : Result unit :=
  doSignaling r_Body HandlerState_init.

End Handler.

(** Whether every [Write] of a trace comes after the return of the
    receive on [gatherComplete]; [gathered] tells whether the receive has
    returned before the trace starts. *)
Fixpoint write_after_gather (gathered : bool) (tr : list Event) : bool :=
  match tr with
  | [] => true
  | Ev CWrite _ :: tr' => gathered && write_after_gather gathered tr'
  | Ev CRecvGatherComplete true :: tr' => write_after_gather true tr'
  | _ :: tr' => write_after_gather gathered tr'
  end.

(** The states of the handler in spec §4.6. *)
Inductive Phase :=
| AwaitingOffer | RemoteDescriptionSet | AwaitingGatherComplete
| AnswerReady | Responded | Failed.

(** Spec §4.6, transitions 1 to 4: the state reached by the calls of a
    trace that raised no error. *)
Definition phase_of_trace (tr : list Event) : Phase :=
  if bool_decide (Ev CWrite true ∈ tr) then Responded
  else if bool_decide (Ev CRecvGatherComplete true ∈ tr) then AnswerReady
  else if bool_decide (Ev CSetLocalDescription true ∈ tr)
       then AwaitingGatherComplete
  else if bool_decide (Ev CSetRemoteDescription true ∈ tr)
       then RemoteDescriptionSet
  else AwaitingOffer.

(** The state in which a run ends: [Failed] when it panics. *)
Definition phase `{C : Collaborators} {A} (r : Result A) : Phase :=
  match r with
  | Panicked _ _ => Failed
  | Returned _ s | Parked s => phase_of_trace (st_trace s)
  end.

(** The state a failed run was in when it panicked. *)
Definition failed_from `{C : Collaborators} {A} (r : Result A) : option Phase :=
  match r with
  | Panicked _ s => Some (phase_of_trace (st_trace s))
  | _ => None
  end.

(** Two request bodies: the JSON text of an empty object, and the five
    letters of the word offer, which are not JSON. *)
Definition body_object : bytes := [Byte.x7b; Byte.x7d].
Definition body_text : bytes :=
  [Byte.x6f; Byte.x66; Byte.x66; Byte.x65; Byte.x72].

(** A transport for the examples: every call succeeds, the answer echoes
    the offer, gathering completes, and a body decodes when it starts
    with an opening brace. *)
Definition loopback : Collaborators :=
  {| error := string;
     SessionDescription := bytes;
     PeerConnection := option bytes;
     api_NewPeerConnection := inl None;
     pc_OnICEConnectionStateChange := fun pc => pc;
     pc_OnDataChannel := fun pc => pc;
     json_Decode := fun b =>
       match b with
       | Byte.x7b :: _ => inl b
       | _ => inr "invalid character looking for beginning of value"%string
       end;
     pc_SetRemoteDescription := fun pc offer => (Some offer, None);
     webrtc_GatheringCompletePromise := fun pc => pc;
     pc_CreateAnswer := fun pc => (pc, inl (default [] pc));
     pc_SetLocalDescription := fun pc answer => (Some answer, None);
     gatherComplete_recv := fun pc => Some pc;
     pc_LocalDescription := fun pc => default [] pc;
     json_Marshal := fun sd => inl sd;
     conn_Write := fun p => (length p, None) |}.

(** ** The JSON text of the request body *)

(** [json.NewDecoder(r.Body).Decode(&offer)], after the package
    [encoding/json]: its scanner, a state machine fed one byte at a
    time, and the two loops over it, [checkValid] (is the whole text one
    JSON value) and [Decoder.readValue] (where does the first value of
    the stream end).  The body is the whole stream; errors of reading it
    are left out. *)
Module JSON.

Inductive ParseState := parseObjectKey | parseObjectValue | parseArrayValue.

(** The step functions of the scanner. *)
Inductive State :=
| stateBeginValueOrEmpty | stateBeginValue
| stateBeginStringOrEmpty | stateBeginString
| stateEndValue | stateEndTop
| stateInString | stateInStringEsc | stateInStringEscU
| stateInStringEscU1 | stateInStringEscU12 | stateInStringEscU123
| stateNeg | state1 | state0 | stateDot | stateDot0
| stateE | stateESign | stateE0
| stateT | stateTr | stateTru
| stateF | stateFa | stateFal | stateFals
| stateN | stateNu | stateNul
| stateError.

(** The codes a step returns. *)
Inductive Scan :=
| scanContinue | scanBeginLiteral | scanBeginObject | scanObjectKey
| scanObjectValue | scanEndObject | scanBeginArray | scanArrayValue
| scanEndArray | scanSkipSpace | scanEnd | scanError.

(** The scanner: [parseState] is the stack, its top first; the field
    [err] is not nil exactly when [step] is [stateError]. *)
Record scanner := {
  step : State;
  endTop : bool;
  parseState : list ParseState
}.

Definition maxNestingDepth : N := 10000.

(** [scan.reset()] *)
Definition reset : scanner :=
  {| step := stateBeginValue; endTop := false; parseState := [] |}.

Definition isSpace (c : Byte.byte) : bool :=
  match c with
  | Byte.x20 | Byte.x09 | Byte.x0d | Byte.x0a => true
  | _ => false
  end.

(** [c == 'x'], for the text [s] of the one byte [x]. *)
Definition isByte (c : Byte.byte) (s : string) : bool :=
  match String.list_byte_of_string s with
  | [b] => Byte.eqb c b
  | _ => false
  end.

(** [lo <= c && c <= hi] *)
Definition between (lo hi : N) (c : Byte.byte) : bool :=
  ((lo <=? Byte.to_N c) && (Byte.to_N c <=? hi))%N.

(** ['0' <= c && c <= '9'] and ['1' <= c && c <= '9'] *)
Definition isDigit : Byte.byte -> bool := between 48 57.
Definition isDigit19 : Byte.byte -> bool := between 49 57.

(** A hexadecimal digit, in either case. *)
Definition isHex (c : Byte.byte) : bool :=
  isDigit c || between 97 102 c || between 65 70 c.

(** [s.step = st] *)
Definition to (st : State) (s : scanner) : scanner :=
  {| step := st; endTop := endTop s; parseState := parseState s |}.

(** [s.error(c, context)] *)
Definition error (s : scanner) : Scan * scanner :=
  (scanError, to stateError s).

Definition pushParseState
    (s : scanner) (newParseState : ParseState) (successState : Scan)
    : Scan * scanner :=
  let s := {| step := step s; endTop := endTop s;
              parseState := newParseState :: parseState s |} in
  if (N.of_nat (length (parseState s)) <=? maxNestingDepth)%N
  then (successState, s)
  else error s.

Definition popParseState (s : scanner) : scanner :=
  match tail (parseState s) with
  | [] => {| step := stateEndTop; endTop := true; parseState := [] |}
  | ps => {| step := stateEndValue; endTop := endTop s; parseState := ps |}
  end.

Definition replaceTop (s : scanner) (ps : ParseState) : scanner :=
  {| step := step s; endTop := endTop s;
     parseState := ps :: tail (parseState s) |}.

(** The step functions; [do_stateX] is the body of the step function
    [stateX] where another step function calls it.  After the top-level
    value a byte that is no space is an error of the next step, not of
    this one. *)
Definition do_stateEndTop (s : scanner) (c : Byte.byte) : Scan * scanner :=
  if isSpace c then (scanEnd, s)
  else (scanEnd, to stateError s).

Definition do_stateEndValue (s : scanner) (c : Byte.byte) : Scan * scanner :=
  match parseState s with
  | [] =>
      do_stateEndTop
        {| step := stateEndTop; endTop := true; parseState := [] |} c
  | ps :: _ =>
      if isSpace c then (scanSkipSpace, to stateEndValue s)
      else
        match ps with
        | parseObjectKey =>
            if isByte c ":"
            then (scanObjectKey,
                  to stateBeginValue (replaceTop s parseObjectValue))
            else error s
        | parseObjectValue =>
            if isByte c ","
            then (scanObjectValue,
                  to stateBeginString (replaceTop s parseObjectKey))
            else if isByte c "}" then (scanEndObject, popParseState s)
            else error s
        | parseArrayValue =>
            if isByte c "," then (scanArrayValue, to stateBeginValue s)
            else if isByte c "]" then (scanEndArray, popParseState s)
            else error s
        end
  end.

Definition do_stateBeginValue (s : scanner) (c : Byte.byte) : Scan * scanner :=
  if isSpace c then (scanSkipSpace, s)
  else if isByte c "{"
  then pushParseState (to stateBeginStringOrEmpty s) parseObjectKey
         scanBeginObject
  else if isByte c "["
  then pushParseState (to stateBeginValueOrEmpty s) parseArrayValue
         scanBeginArray
  else if Byte.eqb c Byte.x22 then (scanBeginLiteral, to stateInString s)
  else if isByte c "-" then (scanBeginLiteral, to stateNeg s)
  else if isByte c "0" then (scanBeginLiteral, to state0 s)
  else if isByte c "t" then (scanBeginLiteral, to stateT s)
  else if isByte c "f" then (scanBeginLiteral, to stateF s)
  else if isByte c "n" then (scanBeginLiteral, to stateN s)
  else if isDigit19 c then (scanBeginLiteral, to state1 s)
  else error s.

Definition do_stateBeginString (s : scanner) (c : Byte.byte) : Scan * scanner :=
  if isSpace c then (scanSkipSpace, s)
  else if Byte.eqb c Byte.x22 then (scanBeginLiteral, to stateInString s)
  else error s.

Definition do_stateE0 (s : scanner) (c : Byte.byte) : Scan * scanner :=
  if isDigit c then (scanContinue, s) else do_stateEndValue s c.

Definition do_stateDot0 (s : scanner) (c : Byte.byte) : Scan * scanner :=
  if isDigit c then (scanContinue, s)
  else if isByte c "e" || isByte c "E" then (scanContinue, to stateE s)
  else do_stateEndValue s c.

Definition do_state0 (s : scanner) (c : Byte.byte) : Scan * scanner :=
  if isByte c "." then (scanContinue, to stateDot s)
  else if isByte c "e" || isByte c "E" then (scanContinue, to stateE s)
  else do_stateEndValue s c.

Definition do_stateESign (s : scanner) (c : Byte.byte) : Scan * scanner :=
  if isDigit c then (scanContinue, to stateE0 s) else error s.

(** In a literal: the letter [l] leads to the state [st]. *)
Definition expect (l : string) (st : State) (s : scanner) (c : Byte.byte)
    : Scan * scanner :=
  if isByte c l then (scanContinue, to st s) else error s.

(** [s.step(s, c)] *)
Definition scanner_step (s : scanner) (c : Byte.byte) : Scan * scanner :=
  match step s with
  | stateBeginValueOrEmpty =>
      if isSpace c then (scanSkipSpace, s)
      else if isByte c "]" then do_stateEndValue s c
      else do_stateBeginValue s c
  | stateBeginValue => do_stateBeginValue s c
  | stateBeginStringOrEmpty =>
      if isSpace c then (scanSkipSpace, s)
      else if isByte c "}"
      then do_stateEndValue (replaceTop s parseObjectValue) c
      else do_stateBeginString s c
  | stateBeginString => do_stateBeginString s c
  | stateEndValue => do_stateEndValue s c
  | stateEndTop => do_stateEndTop s c
  | stateInString =>
      if Byte.eqb c Byte.x22 then (scanContinue, to stateEndValue s)
      else if Byte.eqb c Byte.x5c then (scanContinue, to stateInStringEsc s)
      else if (Byte.to_N c <? 32)%N then error s
      else (scanContinue, s)
  | stateInStringEsc =>
      if isByte c "b" || isByte c "f" || isByte c "n" || isByte c "r"
         || isByte c "t" || Byte.eqb c Byte.x5c || isByte c "/"
         || Byte.eqb c Byte.x22
      then (scanContinue, to stateInString s)
      else if isByte c "u" then (scanContinue, to stateInStringEscU s)
      else error s
  | stateInStringEscU =>
      if isHex c then (scanContinue, to stateInStringEscU1 s) else error s
  | stateInStringEscU1 =>
      if isHex c then (scanContinue, to stateInStringEscU12 s) else error s
  | stateInStringEscU12 =>
      if isHex c then (scanContinue, to stateInStringEscU123 s) else error s
  | stateInStringEscU123 =>
      if isHex c then (scanContinue, to stateInString s) else error s
  | stateNeg =>
      if isByte c "0" then (scanContinue, to state0 s)
      else if isDigit19 c then (scanContinue, to state1 s)
      else error s
  | state1 =>
      if isDigit c then (scanContinue, to state1 s) else do_state0 s c
  | state0 => do_state0 s c
  | stateDot =>
      if isDigit c then (scanContinue, to stateDot0 s) else error s
  | stateDot0 => do_stateDot0 s c
  | stateE =>
      if isByte c "+" || isByte c "-" then (scanContinue, to stateESign s)
      else do_stateESign s c
  | stateESign => do_stateESign s c
  | stateE0 => do_stateE0 s c
  | stateT => expect "r" stateTr s c
  | stateTr => expect "u" stateTru s c
  | stateTru => expect "e" stateEndValue s c
  | stateF => expect "a" stateFa s c
  | stateFa => expect "l" stateFal s c
  | stateFal => expect "s" stateFals s c
  | stateFals => expect "e" stateEndValue s c
  | stateN => expect "u" stateNu s c
  | stateNu => expect "l" stateNul s c
  | stateNul => expect "l" stateEndValue s c
  | stateError => (scanError, s)
  end.

(** [s.eof()], as a boolean: the text ended where a value is complete. *)
Definition eof (s : scanner) : bool :=
  match step s with
  | stateError => false
  | _ =>
      if endTop s then true
      else endTop (scanner_step s Byte.x20).2
  end.

Fixpoint checkValid (s : scanner) (data : bytes) : bool :=
  match data with
  | [] => eof s
  | c :: data' =>
      match scanner_step s c with
      | (scanError, _) => false
      | (_, s') => checkValid s' data'
      end
  end.

(** [json.Valid(data)]: the bytes are one JSON value, with white space
    around it at most. *)
Definition Valid (data : bytes) : bool := checkValid reset data.

(** The loop of [Decoder.readValue] over the bytes that are left of the
    stream: the number of bytes of the first value, [n] bytes being
    scanned already; [None] for an error (a syntax error, or the end of
    the stream before the end of a value). *)
Fixpoint readValue_loop (s : scanner) (buf : bytes) (n : nat) : option nat :=
  match buf with
  | [] =>
      match scanner_step s Byte.x20 with
      | (scanEnd, _) => Some n
      | _ => None
      end
  | c :: buf' =>
      match scanner_step s c with
      | (scanEnd, _) => Some n
      | (scanEndObject, s') | (scanEndArray, s') =>
          match do_stateEndValue s' Byte.x20 with
          | (scanEnd, _) => Some (S n)
          | (_, s'') => readValue_loop s'' buf' (S n)
          end
      | (scanError, _) => None
      | (_, s') => readValue_loop s' buf' (S n)
      end
  end.

Definition readValue (body : bytes) : option nat :=
  readValue_loop reset body 0.

(** [Decoder.Decode(v)] on a new decoder: the first value of the stream
    is cut out and handed to [unmarshal]; what follows it in the stream
    is not looked at. *)
Definition Decode {A E : Type}
    (unmarshal : bytes -> A + E) (syntax_error : bytes -> E)
    (body : bytes) : A + E :=
  match readValue body with
  | Some n => unmarshal (take n body)
  | None => inr (syntax_error body)
  end.

(** [endTop] is set only together with the step [stateEndTop], or with
    an error. *)
Definition consistent (s : scanner) : Prop :=
  endTop s = true -> step s = stateEndTop \/ step s = stateError.

End JSON.

(** The bytes of a text, and of the text between two quotation marks. *)
Definition js (s : string) : bytes := String.list_byte_of_string s.

Definition quoted (s : string) : bytes := [Byte.x22] ++ js s ++ [Byte.x22].

(** Two more request bodies: the JSON text of a session description,
    an object with the members [type] and [sdp], and the same text with
    a closing brace and a closing bracket after it. *)
Definition body_offer : bytes :=
  js "{" ++ quoted "type" ++ js ":" ++ quoted "offer" ++ js ","
  ++ quoted "sdp" ++ js ":" ++ quoted "v=0" ++ js "}".

Definition body_offer_trailing : bytes := body_offer ++ js "}]".

(** For the examples: a value that ends with a closing brace, an object,
    unmarshals into a session description, any other value does not. *)
Definition unmarshal_object (v : bytes) : bytes + string :=
  match last v with
  | Some Byte.x7d => inl v
  | _ => inr "json: cannot unmarshal into Go value"%string
  end.

Definition syntax_error_text (body : bytes) : string :=
  "invalid character looking for beginning of value".

(** The transport of the examples behind the decoder of
    [encoding/json]. *)
Definition loopback_json : Collaborators :=
  {| error := string;
     SessionDescription := bytes;
     PeerConnection := option bytes;
     api_NewPeerConnection := inl None;
     pc_OnICEConnectionStateChange := fun pc => pc;
     pc_OnDataChannel := fun pc => pc;
     json_Decode := JSON.Decode unmarshal_object syntax_error_text;
     pc_SetRemoteDescription := fun pc offer => (Some offer, None);
     webrtc_GatheringCompletePromise := fun pc => pc;
     pc_CreateAnswer := fun pc => (pc, inl (default [] pc));
     pc_SetLocalDescription := fun pc answer => (Some answer, None);
     gatherComplete_recv := fun pc => Some pc;
     pc_LocalDescription := fun pc => default [] pc;
     json_Marshal := fun sd => inl sd;
     conn_Write := fun p => (length p, None) |}.

(** The report of a pair, from the priority and the two candidate
    records it is made of. *)
Definition report_fields
    (priority : Z) (localCandidate remoteCandidate : ICECandidateStats)
    : iface :=
  ISlice
    [ IUint64 priority;
      INetworkType (NetworkType localCandidate);
      IString (Protocol localCandidate);
      ICandidateType (CandidateType localCandidate);
      IString (IP localCandidate);
      IInt32 (Port localCandidate);
      IString (RelayProtocol localCandidate);
      INetworkType (NetworkType remoteCandidate);
      IString (Protocol remoteCandidate);
      ICandidateType (CandidateType remoteCandidate);
      IString (IP remoteCandidate);
      IInt32 (Port remoteCandidate);
      IString (RelayProtocol remoteCandidate) ].

(** A statistics report for the examples: a candidate pair that is not
    nominated, the two candidates of the scenario, a transport record
    and the nominated pair of the two candidates. *)
Definition scenario_stats : list Stats :=
  [ PairStats {| Nominated := false; LocalCandidateID := "L1";
                 RemoteCandidateID := "R0" |};
    CandidateStats {| ID := "L1"; NetworkType := 0; Protocol := "";
                      CandidateType := 0; IP := ""; Port := 0;
                      RelayProtocol := ""; Priority := 100 |};
    OtherStats "transport";
    CandidateStats {| ID := "R1"; NetworkType := 0; Protocol := "";
                      CandidateType := 0; IP := ""; Port := 0;
                      RelayProtocol := ""; Priority := 200 |};
    PairStats {| Nominated := true; LocalCandidateID := "L1";
                 RemoteCandidateID := "R1" |} ].

(** The header map after [w.Header().Set("Content-Type",
    "application/json")] on a fresh response writer. *)
Definition content_type_json : gmap string (list string) :=
  <["Content-Type"%string := ["application/json"%string]]> ∅.

(** ** The callbacks *)

(** What the connection state callback prints, one value per [Printf],
    with the argument in place of its formatted text. *)
Inductive Printed :=
| PrState (connectionState : string)
| PrNCP (ncp : candidatePair)
| PrStats (v : list iface)
| PrNominated (v : list candidatePair)
| PrCandidates (v : list ICECandidateStats).

(** The callback given to [OnICEConnectionStateChange]: [stats] is what
    [range peerConnection.GetStats()] yields when it runs.  The [NCP]
    lines come from [getSetCandidates], which runs before the [STATS]
    line is printed. *)
Definition onICEConnectionStateChange
    (fused : bool) (uint64_out_of_range : Float64.float64 -> Z)
    (connectionState : string) (stats : list Stats) : list Printed :=
  let cps := newSetCandidateStats stats in
  [PrState connectionState]
  ++ map PrNCP (nominatedCandidatePairs cps)
  ++ [ PrStats (getSetCandidates fused uint64_out_of_range cps);
       PrNominated (nominatedCandidatePairs cps);
       PrCandidates (candidates cps) ].

(** Go errors as the send loop tells them apart: the sentinel
    [io.ErrClosedPipe], an error made by [errors.New], and an error that
    wraps another one (its [Unwrap]). *)
Inductive GoError :=
| ErrClosedPipe
| ErrNew (msg : string)
| ErrWrap (msg : string) (inner : GoError).

#[global] Instance GoError_eq_dec : EqDecision GoError.
Proof. solve_decision. Defined.

(** [errors.Is(err, target)] on errors without an [Is] method: [err], or
    an error of its [Unwrap] chain, equals [target]. *)
Fixpoint errors_Is (err target : GoError) : bool :=
  bool_decide (err = target)
  || match err with
     | ErrWrap _ inner => errors_Is inner target
     | _ => false
     end.

(** ** The send loops and the variable [err] *)

(** Where a loop of the [OnOpen] callback stands.  The loop assigns the
    result of [d.SendText] to [err], the variable of [doSignaling] that
    every callback of the session captures, and then reads [err] again
    at the test against nil, in [errors.Is] and in [panic]: between two
    of these steps other code of the session may assign [err]. *)
Inductive LoopPC :=
| AtTick
| AtNilTest
| AtIsTest
| AtPanic
| LoopReturned
| LoopPanicked (v : option GoError).

(** A loop: the results of the calls of [d.SendText] at the ticks that
    are still to come ([None] for a nil error), the number of calls made,
    and where the loop stands. *)
Record OpenLoop := {
  loop_pending : list (option GoError);
  loop_calls : nat;
  loop_pc : LoopPC
}.

(** The loop of a data channel that has just opened. *)
Definition onOpen (sends : list (option GoError)) : OpenLoop :=
  {| loop_pending := sends; loop_calls := 0; loop_pc := AtTick |}.

(** One step of a loop on the value of [err]: the new value of [err] and
    the loop.  At [AtTick] with no tick left the loop waits. *)
Definition loop_step (err : option GoError) (l : OpenLoop)
    : option GoError * OpenLoop :=
  let goto pc' :=
    {| loop_pending := loop_pending l; loop_calls := loop_calls l;
       loop_pc := pc' |} in
  match loop_pc l with
  | AtTick =>
      match loop_pending l with
      | [] => (err, l)
      | r :: rest =>
          (r, {| loop_pending := rest; loop_calls := S (loop_calls l);
                 loop_pc := AtNilTest |})
      end
  | AtNilTest =>
      (err, goto (if err is Some _ then AtIsTest else AtTick))
  | AtIsTest =>
      (err,
       goto (match err with
             | Some e => if errors_Is ErrClosedPipe e then LoopReturned
                         else AtPanic
             | None => AtPanic
             end))
  | AtPanic => (err, goto (LoopPanicked err))
  | LoopReturned | LoopPanicked _ => (err, l)
  end.

(** The variable [err] and the loops of the data channels opened so far
    in a session. *)
Record Session := {
  session_err : option GoError;
  session_loops : list OpenLoop
}.

(** What happens next in a session: the loop of the [i]-th data channel
    makes a step, or other code of the session assigns [err]. *)
Inductive Action :=
| Step (i : nat)
| Assign (v : option GoError).

(** A panic in a callback ends the program. *)
Definition crashed (s : Session) : bool :=
  existsb (fun l => if loop_pc l is LoopPanicked _ then true else false)
    (session_loops s).

Definition act (s : Session) (a : Action) : Session :=
  if crashed s then s
  else
    match a with
    | Assign v => {| session_err := v; session_loops := session_loops s |}
    | Step i =>
        match session_loops s !! i with
        | Some l =>
            let '(err, l') := loop_step (session_err s) l in
            {| session_err := err;
               session_loops := <[i := l']> (session_loops s) |}
        | None => s
        end
    end.

Definition run (s : Session) (schedule : list Action) : Session :=
  fold_left act schedule s.

(** The session with a single data channel in which nothing but the loop
    of that channel assigns [err], after [k] steps of the loop; [err] is
    the value of the variable when the channel opens. *)
Definition alone (err : option GoError) (sends : list (option GoError))
    (k : nat) : Session :=
  run {| session_err := err; session_loops := [onOpen sends] |}
    (replicate k (Step 0%nat)).

(** A loop that has returned or panicked, or that waits with no tick
    left, stays as it is. *)
Definition at_rest (l : OpenLoop) : Prop :=
  match loop_pc l with
  | LoopReturned | LoopPanicked _ => True
  | AtTick => loop_pending l = []
  | _ => False
  end.

(** ** The calls of the handler, in program order *)



(** The transport of the examples with a discovery that never reports
    completion. *)
Definition stalled : Collaborators :=
  {| error := string;
     SessionDescription := bytes;
     PeerConnection := option bytes;
     api_NewPeerConnection := inl None;
     pc_OnICEConnectionStateChange := fun pc => pc;
     pc_OnDataChannel := fun pc => pc;
     json_Decode := @json_Decode loopback;
     pc_SetRemoteDescription := fun pc offer => (Some offer, None);
     webrtc_GatheringCompletePromise := fun pc => pc;
     pc_CreateAnswer := fun pc => (pc, inl (default [] pc));
     pc_SetLocalDescription := fun pc answer => (Some answer, None);
     gatherComplete_recv := fun pc => None;
     pc_LocalDescription := fun pc => default [] pc;
     json_Marshal := fun sd => inl sd;
     conn_Write := fun p => (length p, None) |}.

(** The transport of the examples over a connection that takes one byte
    of the response and then fails. *)
Definition broken_pipe : Collaborators :=
  {| error := string;
     SessionDescription := bytes;
     PeerConnection := option bytes;
     api_NewPeerConnection := inl None;
     pc_OnICEConnectionStateChange := fun pc => pc;
     pc_OnDataChannel := fun pc => pc;
     json_Decode := @json_Decode loopback;
     pc_SetRemoteDescription := fun pc offer => (Some offer, None);
     webrtc_GatheringCompletePromise := fun pc => pc;
     pc_CreateAnswer := fun pc => (pc, inl (default [] pc));
     pc_SetLocalDescription := fun pc answer => (Some answer, None);
     gatherComplete_recv := fun pc => Some pc;
     pc_LocalDescription := fun pc => default [] pc;
     json_Marshal := fun sd => inl sd;
     conn_Write := fun p => (1%nat, Some "write: broken pipe"%string) |}.

(** * Properties *)

(** ** Rounding of integers to 53 bits *)

Module Float64Facts.
Import Float64.

Lemma pow2_pos (s : Z) : 0 <= s -> 0 < 2 ^ s.
Proof. intros; apply Z.pow_pos_nonneg; lia. Qed.

(** The rounded value lies between the two neighbouring multiples. *)
Lemma round_shift_bounds (x s : Z) :
  0 <= s ->
  x / 2 ^ s * 2 ^ s <= round_shift x s <= (x / 2 ^ s + 1) * 2 ^ s.
Proof.
  intros Hs. pose proof (pow2_pos s Hs). unfold round_shift.
  destruct (_ || _); lia.
Qed.

Lemma round_shift_mono (x y s : Z) :
  1 <= s -> x <= y -> round_shift x s <= round_shift y s.
Proof.
  intros Hs Hxy.
  assert (Hp : 0 < 2 ^ s) by (apply pow2_pos; lia).
  pose proof (Z.div_le_mono x y (2 ^ s) Hp Hxy) as Hq.
  destruct (Z.eq_dec (x / 2 ^ s) (y / 2 ^ s)) as [Heq | Hne].
  - assert (Hr : x mod 2 ^ s <= y mod 2 ^ s).
    { pose proof (Z.div_mod x (2 ^ s)). pose proof (Z.div_mod y (2 ^ s)).
      rewrite Heq in *. lia. }
    unfold round_shift. rewrite Heq.
    destruct (Z.ltb_spec (y mod 2 ^ s) (2 ^ (s - 1)));
      destruct (Z.ltb_spec (x mod 2 ^ s) (2 ^ (s - 1)));
      destruct (Z.eqb_spec (y mod 2 ^ s) (2 ^ (s - 1)));
      destruct (Z.eqb_spec (x mod 2 ^ s) (2 ^ (s - 1)));
      destruct (Z.even (y / 2 ^ s)); simpl; lia.
  - pose proof (round_shift_bounds x s ltac:(lia)).
    pose proof (round_shift_bounds y s ltac:(lia)).
    nia.
Qed.

(** A value of at least [2^53] keeps its binade under rounding. *)
Lemma round_binade (x : Z) :
  2 ^ 53 <= x ->
  2 ^ Z.log2 x <= round x <= 2 ^ (Z.log2 x + 1).
Proof.
  intros Hx. unfold round.
  destruct (Z.ltb_spec x (2 ^ 53)); [lia|].
  assert (Hx0 : 0 < x) by lia.
  pose proof (Z.log2_spec x Hx0) as [Hlo Hhi].
  assert (Hn : 53 <= Z.log2 x).
  { apply Z.log2_le_pow2; lia. }
  set (n := Z.log2 x) in *. set (s := n - 52).
  assert (Hs : 1 <= s) by (unfold s; lia).
  assert (Hp : 0 < 2 ^ s) by (apply pow2_pos; lia).
  assert (E1 : 2 ^ n = 2 ^ 52 * 2 ^ s).
  { rewrite <- Z.pow_add_r by lia. f_equal. unfold s. lia. }
  assert (E2 : 2 ^ (n + 1) = 2 ^ 53 * 2 ^ s).
  { rewrite <- Z.pow_add_r by lia. f_equal. unfold s. lia. }
  replace (Z.succ n) with (n + 1) in Hhi by lia.
  assert (Hq1 : 2 ^ 52 <= x / 2 ^ s).
  { apply Z.div_le_lower_bound; lia. }
  assert (Hq2 : x / 2 ^ s < 2 ^ 53).
  { apply Z.div_lt_upper_bound; lia. }
  pose proof (round_shift_bounds x s ltac:(lia)).
  rewrite E1, E2. nia.
Qed.

Lemma round_small (x : Z) : x < 2 ^ 53 -> round x = x.
Proof.
  intros. unfold round. destruct (Z.ltb_spec x (2 ^ 53)); lia.
Qed.

Lemma round_mono (x y : Z) :
  0 <= x -> x <= y -> round x <= round y.
Proof.
  intros Hx Hxy.
  destruct (Z.lt_ge_cases y (2 ^ 53)) as [Hy | Hy].
  { rewrite !round_small by lia. lia. }
  pose proof (round_binade y Hy) as By.
  assert (Hny : 53 <= Z.log2 y) by (apply Z.log2_le_pow2; lia).
  destruct (Z.lt_ge_cases x (2 ^ 53)) as [Hx' | Hx'].
  { rewrite (round_small x) by lia.
    assert (2 ^ 53 <= 2 ^ Z.log2 y) by (apply Z.pow_le_mono_r; lia). lia. }
  pose proof (round_binade x Hx') as Bx.
  pose proof (Z.log2_le_mono x y Hxy) as Hl.
  destruct (Z.eq_dec (Z.log2 x) (Z.log2 y)) as [Heq | Hne].
  - unfold round.
    destruct (Z.ltb_spec x (2 ^ 53)); [lia|].
    destruct (Z.ltb_spec y (2 ^ 53)); [lia|].
    rewrite Heq. apply round_shift_mono; lia.
  - assert (2 ^ (Z.log2 x + 1) <= 2 ^ Z.log2 y)
      by (apply Z.pow_le_mono_r; lia).
    lia.
Qed.

Lemma round_nonneg (x : Z) : 0 <= x -> 0 <= round x.
Proof.
  intros. change 0 with (round 0) at 1. apply round_mono; lia.
Qed.

(** ** The floats of integers in the IEEE specification *)

Lemma digits2_pos_log2 (p : positive) :
  Z.pos (digits2_pos p) = Z.log2 (Z.pos p) + 1.
Proof.
  induction p as [p IH | p IH |]; simpl; try reflexivity.
  - rewrite Pos2Z.inj_succ, IH. destruct p; simpl; lia.
  - rewrite Pos2Z.inj_succ, IH. destruct p; simpl; lia.
Qed.

Lemma iter_pos_nat {A} (f : A -> A) (n : positive) (x : A) :
  SpecFloat.iter_pos f n x = @Nat.iter (Pos.to_nat n) A f x.
Proof.
  revert x. induction n as [n IH | n IH |]; intros x; cbn [SpecFloat.iter_pos].
  - rewrite !IH, Pos2Nat.inj_xI, <- Nat.iter_add.
    replace (S (2 * Pos.to_nat n)) with (S (Pos.to_nat n + Pos.to_nat n))
      by lia.
    rewrite Nat.iter_succ_r. reflexivity.
  - rewrite !IH, Pos2Nat.inj_xO, <- Nat.iter_add. f_equal. lia.
  - reflexivity.
Qed.

Lemma shr_1_nonneg (m : Z) (r s : bool) :
  0 <= m ->
  shr_1 {| shr_m := m; shr_r := r; shr_s := s |}
  = {| shr_m := m / 2; shr_r := Z.odd m; shr_s := r || s |}.
Proof.
  intros Hm. destruct m as [|p|p]; [reflexivity| |lia].
  destruct p as [p|p|]; simpl; try reflexivity.
  - rewrite Pos2Z.inj_xI. f_equal. 
    replace (2 * Z.pos p + 1) with (1 + Z.pos p * 2) by lia.
    rewrite Z.div_add by lia. reflexivity.
  - rewrite Pos2Z.inj_xO. f_equal.
    rewrite Z.mul_comm, Z.div_mul by lia. reflexivity.
Qed.

Lemma shr_iter (k : nat) (m : Z) :
  0 <= m ->
  @Nat.iter (S k) shr_record shr_1
    {| shr_m := m; shr_r := false; shr_s := false |}
  = {| shr_m := m / 2 ^ Z.of_nat (S k);
       shr_r := Z.odd (m / 2 ^ Z.of_nat k);
       shr_s := negb (m mod 2 ^ Z.of_nat k =? 0) |}.
Proof.
  intros Hm. induction k as [|k IH].
  - rewrite Nat.iter_succ. unfold Nat.iter; cbn [nat_rect].
    rewrite shr_1_nonneg by lia.
    change (2 ^ Z.of_nat 0) with 1. change (2 ^ Z.of_nat 1) with 2.
    rewrite Z.div_1_r, Z.mod_1_r. reflexivity.
  - rewrite Nat.iter_succ, IH.
    assert (Hp : 0 < 2 ^ Z.of_nat k) by (apply Z.pow_pos_nonneg; lia).
    assert (Hp' : 0 < 2 ^ Z.of_nat (S k)) by (apply Z.pow_pos_nonneg; lia).
    assert (E : 2 ^ Z.of_nat (S k) = 2 ^ Z.of_nat k * 2).
    { rewrite Nat2Z.inj_succ, Z.pow_succ_r by lia. lia. }
    assert (E' : 2 ^ Z.of_nat (S (S k)) = 2 ^ Z.of_nat (S k) * 2).
    { rewrite (Nat2Z.inj_succ (S k)), Z.pow_succ_r by lia. lia. }
    rewrite shr_1_nonneg by (apply Z.div_pos; lia).
    f_equal.
    + rewrite E', Z.div_div by lia. reflexivity.
    + (* sticky *)
      rewrite E. rewrite Z.rem_mul_r by lia.
      rewrite <- (Z.bit0_mod (m / 2 ^ Z.of_nat k)) , Z.bit0_odd.
      destruct (Z.odd (m / 2 ^ Z.of_nat k)).
      * simpl. symmetry. apply negb_true_iff, Z.eqb_neq.
        pose proof (Z.mod_pos_bound m (2 ^ Z.of_nat k) Hp). simpl Z.b2z. lia.
      * simpl. f_equal. simpl Z.b2z. f_equal. lia.
Qed.

Lemma shr_pos (m e n : Z) :
  0 <= m -> 0 < n ->
  shr {| shr_m := m; shr_r := false; shr_s := false |} e n
  = ({| shr_m := m / 2 ^ n;
        shr_r := Z.odd (m / 2 ^ (n - 1));
        shr_s := negb (m mod 2 ^ (n - 1) =? 0) |}, e + n).
Proof.
  intros Hm Hn. destruct n as [|p|p]; try lia.
  unfold shr. rewrite iter_pos_nat.
  destruct (Pos.to_nat p) as [|k] eqn:Hk; [lia|].
  rewrite shr_iter by lia.
  assert (Z.pos p = Z.of_nat (S k)) by lia.
  assert (Z.pos p - 1 = Z.of_nat k) by lia.
  congruence.
Qed.

Lemma Zdigits2_log2 (m : Z) : 0 < m -> Zdigits2 m = Z.log2 m + 1.
Proof. destruct m; try lia. intros _. apply digits2_pos_log2. Qed.

Lemma shr_fexp_exact (m e : Z) :
  0 < m ->
  shr_fexp prec emax m e loc_Exact
  = shr {| shr_m := m; shr_r := false; shr_s := false |} e
        (fexp prec emax (Z.log2 m + 1 + e) - e).
Proof.
  intros Hm. unfold shr_fexp. rewrite Zdigits2_log2 by lia. reflexivity.
Qed.

Lemma log2_shift (v k : Z) :
  0 < v -> 0 <= k -> Z.log2 (v * 2 ^ k) = Z.log2 v + k.
Proof. intros. rewrite Z.log2_mul_pow2 by lia. lia. Qed.

Lemma binary_round_aux_exact (m e : Z) :
  0 < m ->
  binary_round_aux prec emax false m e loc_Exact
  = let '(mrs, e') := shr {| shr_m := m; shr_r := false; shr_s := false |} e
                          (fexp prec emax (Z.log2 m + 1 + e) - e) in
    renormalize (round_nearest_even (shr_m mrs) (loc_of_shr_record mrs)) e'.
Proof.
  intros Hm. unfold binary_round_aux, renormalize.
  rewrite shr_fexp_exact by lia. reflexivity.
Qed.

Lemma renormalize_normal (q : positive) (e : Z) :
  Z.log2 (Z.pos q) <= 52 -> - 1000 <= e <= 900 ->
  renormalize (Z.pos q) e = S754_finite false q e.
Proof.
  intros Hq He. unfold renormalize.
  rewrite shr_fexp_exact by lia.
  assert (Hn : fexp prec emax (Z.log2 (Z.pos q) + 1 + e) - e <= 0).
  { unfold fexp, emin, prec, emax. lia. }
  unfold shr. destruct (fexp _ _ _ - e); try lia; cbn [shr_m];
    unfold prec, emax; destruct (Z.leb_spec e (1024 - 53));
    try reflexivity; lia.
Qed.

Lemma renormalize_carry (e : Z) :
  - 1000 <= e <= 900 ->
  renormalize (2 ^ 53) e = S754_finite false (2 ^ 52)%positive (e + 1).
Proof.
  intros He. unfold renormalize. rewrite shr_fexp_exact by lia.
  change (Z.log2 (2 ^ 53)) with 53.
  replace (fexp prec emax (53 + 1 + e) - e) with 1
    by (unfold fexp, emin, prec, emax; lia).
  rewrite shr_pos by lia. cbn [shr_m].
  change (2 ^ 53 / 2 ^ 1) with (Z.pos (2 ^ 52)).
  unfold prec, emax.
  destruct (Z.leb_spec (e + 1) (1024 - 53)); [reflexivity | lia].
Qed.

Lemma odd_mul_pow2 (x j : Z) : 1 <= j -> Z.odd (x * 2 ^ j) = false.
Proof.
  intros Hj. replace j with (Z.succ (j - 1)) by lia.
  rewrite Z.pow_succ_r by lia.
  replace (x * (2 * 2 ^ (j - 1))) with (2 * (x * 2 ^ (j - 1))) by lia.
  apply Z.odd_even.
Qed.

(** The rounding decision of [SpecFloat] is that of [round_shift]. *)
Lemma round_nearest_even_shift (v s : Z) :
  0 <= v -> 1 <= s ->
  round_nearest_even (v / 2 ^ s)
    (loc_of_shr_record
       {| shr_m := v / 2 ^ s;
          shr_r := Z.odd (v / 2 ^ (s - 1));
          shr_s := negb (v mod 2 ^ (s - 1) =? 0) |}) * 2 ^ s
  = round_shift v s.
Proof.
  intros Hv Hs.
  assert (Hh : 0 < 2 ^ (s - 1)) by (apply pow2_pos; lia).
  assert (E : 2 ^ s = 2 ^ (s - 1) * 2).
  { replace s with (Z.succ (s - 1)) at 1 by lia.
    rewrite Z.pow_succ_r by lia. lia. }
  assert (Hq : v / 2 ^ s = v / 2 ^ (s - 1) / 2).
  { rewrite E, Z.div_div by lia. reflexivity. }
  assert (Hr : v mod 2 ^ s
               = v mod 2 ^ (s - 1)
                 + 2 ^ (s - 1) * Z.b2z (Z.odd (v / 2 ^ (s - 1)))).
  { rewrite E, Z.rem_mul_r by lia.
    rewrite <- Z.bit0_mod, Z.bit0_odd. reflexivity. }
  pose proof (Z.mod_pos_bound v (2 ^ (s - 1)) Hh) as Hb.
  unfold round_shift. rewrite Hr. 
  destruct (Z.odd (v / 2 ^ (s - 1))) eqn:Ho; cbn [Z.b2z loc_of_shr_record].
  - destruct (Z.eqb_spec (v mod 2 ^ (s - 1)) 0) as [Hz | Hz];
      cbn [negb loc_of_shr_record round_nearest_even].
    + rewrite Hz.
      destruct (Z.ltb_spec (0 + 2 ^ (s - 1) * 1) (2 ^ (s - 1))); [lia|].
      destruct (Z.eqb_spec (0 + 2 ^ (s - 1) * 1) (2 ^ (s - 1))); [|lia].
      cbn [orb andb]. destruct (Z.even (v / 2 ^ s)); reflexivity.
    + destruct (Z.ltb_spec (v mod 2 ^ (s - 1) + 2 ^ (s - 1) * 1)
                           (2 ^ (s - 1))); [lia|].
      destruct (Z.eqb_spec (v mod 2 ^ (s - 1) + 2 ^ (s - 1) * 1)
                           (2 ^ (s - 1))); [lia|].
      reflexivity.
  - destruct (Z.ltb_spec (v mod 2 ^ (s - 1) + 2 ^ (s - 1) * 0)
                         (2 ^ (s - 1))); [|lia].
    cbn [orb].
    destruct (negb (v mod 2 ^ (s - 1) =? 0)); reflexivity.
Qed.

Lemma binary_round_aux_denotes (m : positive) (e v : Z) :
  - 900 <= e <= 0 -> 0 < v < 2 ^ 900 ->
  Z.pos m = v * 2 ^ (- e) -> 52 <= Z.log2 (Z.pos m) ->
  denotes (binary_round_aux prec emax false (Z.pos m) e loc_Exact) (round v).
Proof.
  intros He Hv Hm Hcan.
  assert (HL : 0 <= Z.log2 v < 900).
  { split; [apply Z.log2_nonneg|]. apply Z.log2_lt_pow2; lia. }
  assert (Hlog : Z.log2 (Z.pos m) = Z.log2 v - e).
  { rewrite Hm, log2_shift by lia. lia. }
  pose proof (Z.log2_spec v ltac:(lia)) as [Hlo Hhi].
  rewrite binary_round_aux_exact by lia.
  rewrite Hlog.
  replace (fexp prec emax (Z.log2 v - e + 1 + e) - e) with (Z.log2 v - 52 - e)
    by (unfold fexp, emin, prec, emax; lia).
  destruct (Z.le_gt_cases (Z.log2 v - 52 - e) 0) as [Hn | Hn].
  - (* the mantissa already fits *)
    assert (Hsmall : v < 2 ^ 53).
    { apply Z.log2_lt_pow2; lia. }
    unfold shr. destruct (Z.log2 v - 52 - e) eqn:En; try lia;
      cbn [shr_m loc_of_shr_record round_nearest_even shr_r shr_s];
      (rewrite renormalize_normal by lia);
      unfold denotes, round;
      (destruct (Z.ltb_spec v (2 ^ 53)); [|lia]);
      (replace (Z.max e 0) with 0 by lia);
      (replace (Z.max (- e) 0) with (- e) by lia); lia.
  - rewrite shr_pos by lia.
    set (n := Z.log2 v - 52 - e) in *.
    destruct (Z.le_gt_cases (Z.log2 v) 52) as [Hs | Hs].
    + (* only zero bits are shifted out *)
      assert (Hsmall : v < 2 ^ 53) by (apply Z.log2_lt_pow2; lia).
      assert (Hp : 0 < 2 ^ (n - 1)) by (apply pow2_pos; lia).
      assert (Hp' : 0 < 2 ^ n) by (apply pow2_pos; lia).
      assert (E1 : Z.pos m = v * 2 ^ (52 - Z.log2 v) * 2 ^ n).
      { rewrite Hm, <- Z.mul_assoc, <- Z.pow_add_r by lia. do 2 f_equal. lia. }
      assert (E2 : Z.pos m = v * 2 ^ (53 - Z.log2 v) * 2 ^ (n - 1)).
      { rewrite Hm, <- Z.mul_assoc, <- Z.pow_add_r by lia. do 2 f_equal. lia. }
      rewrite E1 at 1. rewrite Z.div_mul by lia.
      rewrite E2. rewrite Z.div_mul, Z.mod_mul by lia.
      rewrite odd_mul_pow2 by lia.
      cbn [Z.eqb negb shr_m loc_of_shr_record round_nearest_even].
      assert (Hq : 0 < v * 2 ^ (52 - Z.log2 v)).
      { apply Z.mul_pos_pos; [lia | apply pow2_pos; lia]. }
      destruct (v * 2 ^ (52 - Z.log2 v)) as [|q|q] eqn:Eq; try lia.
      assert (Z.log2 (Z.pos q) = 52).
      { rewrite <- Eq, log2_shift by lia. lia. }
      rewrite renormalize_normal by lia.
      unfold denotes, round.
      destruct (Z.ltb_spec v (2 ^ 53)); [|lia].
      split; [lia|]. split; [assumption|].
      replace (Z.max (e + n) 0) with 0 by lia.
      replace (Z.max (- (e + n)) 0) with (52 - Z.log2 v) by lia. lia.
    + (* low bits are rounded away *)
      set (s := Z.log2 v - 52) in *.
      assert (Hs1 : 1 <= s) by (unfold s; lia).
      assert (Hbig : 2 ^ 53 <= v).
      { transitivity (2 ^ Z.log2 v); [apply Z.pow_le_mono_r; lia | lia]. }
      assert (Hpe : 0 < 2 ^ (- e)) by (apply pow2_pos; lia).
      assert (Hps : 0 < 2 ^ s) by (apply pow2_pos; lia).
      assert (Hps1 : 0 < 2 ^ (s - 1)) by (apply pow2_pos; lia).
      assert (En : 2 ^ n = 2 ^ (- e) * 2 ^ s).
      { rewrite <- Z.pow_add_r by lia. f_equal. lia. }
      assert (En1 : 2 ^ (n - 1) = 2 ^ (- e) * 2 ^ (s - 1)).
      { rewrite <- Z.pow_add_r by lia. f_equal. lia. }
      rewrite Hm, En, En1.
      rewrite !(Z.mul_comm v (2 ^ (- e))).
      rewrite !Z.div_mul_cancel_l by lia.
      rewrite Z.mul_mod_distr_l by lia.
      replace (negb (2 ^ (- e) * (v mod 2 ^ (s - 1)) =? 0))
        with (negb (v mod 2 ^ (s - 1) =? 0)).
      2:{ f_equal. destruct (Z.eqb_spec (v mod 2 ^ (s - 1)) 0) as [-> | Hz].
          - rewrite Z.mul_0_r. reflexivity.
          - symmetry. apply Z.eqb_neq. nia. }
      cbn [shr_m].
      pose proof (round_nearest_even_shift v s ltac:(lia) Hs1) as Hrs.
      pose proof (round_shift_bounds v s ltac:(lia)) as Hb.
      set (q' := round_nearest_even _ _) in *.
      assert (E52 : 2 ^ Z.log2 v = 2 ^ 52 * 2 ^ s).
      { rewrite <- Z.pow_add_r by lia. f_equal. unfold s. lia. }
      assert (E53 : 2 ^ Z.succ (Z.log2 v) = 2 ^ 53 * 2 ^ s).
      { rewrite <- Z.pow_add_r by lia. f_equal. unfold s. lia. }
      assert (Hq1 : 2 ^ 52 <= v / 2 ^ s) by (apply Z.div_le_lower_bound; lia).
      assert (Hq2 : v / 2 ^ s < 2 ^ 53) by (apply Z.div_lt_upper_bound; lia).
      assert (Hq' : 2 ^ 52 <= q' <= 2 ^ 53) by nia.
      replace (e + n) with s by (unfold n, s; lia).
      unfold round. destruct (Z.ltb_spec v (2 ^ 53)); [lia|].
      fold s. rewrite <- Hrs.
      destruct (Z.eq_dec q' (2 ^ 53)) as [Ec | Ec].
      * rewrite Ec, renormalize_carry by lia.
        unfold denotes. split; [nia|]. split; [reflexivity|].
        replace (Z.max (s + 1) 0) with (s + 1) by lia.
        replace (Z.max (- (s + 1)) 0) with 0 by lia.
        rewrite Z.pow_add_r by lia. change (Z.pos (2 ^ 52)) with (2 ^ 52). lia.
      * destruct q' as [|q|q] eqn:Eq'; try lia.
        assert (Z.log2 (Z.pos q) = 52).
        { apply Z.log2_unique; lia. }
        rewrite renormalize_normal by lia.
        unfold denotes. split; [nia|]. split; [assumption|].
        replace (Z.max s 0) with s by lia.
        replace (Z.max (- s) 0) with 0 by lia. lia.
Qed.

Lemma iter_xO (m d : positive) :
  Z.pos (Pos.iter xO m d) = Z.pos m * 2 ^ Z.pos d.
Proof.
  induction d as [|d IH] using Pos.peano_ind.
  - simpl. lia.
  - rewrite Pos.iter_succ, Pos2Z.inj_xO, IH, Pos2Z.inj_succ, Z.pow_succ_r
      by lia.
    lia.
Qed.

(** [shl_align] towards a lower exponent multiplies the mantissa. *)
Lemma shl_align_fst (m : positive) (e e' : Z) :
  e' <= e -> Z.pos (fst (shl_align m e e')) = Z.pos m * 2 ^ (e - e').
Proof.
  intros He. unfold shl_align.
  destruct (e' - e) as [|d|d] eqn:Ed; try lia; cbn [fst].
  - replace (e - e') with 0 by lia. lia.
  - rewrite iter_xO. f_equal. f_equal. lia.
Qed.

Lemma shl_align_snd (m : positive) (e e' : Z) :
  snd (shl_align m e e') = Z.min e e'.
Proof.
  unfold shl_align. destruct (e' - e) as [|d|d] eqn:Ed; cbn [snd]; lia.
Qed.

Lemma binary_round_denotes (m : positive) (e v : Z) :
  - 800 <= e <= 0 -> 0 < v < 2 ^ 800 ->
  Z.pos m = v * 2 ^ (- e) ->
  denotes (binary_round prec emax false m e) (round v).
Proof.
  intros He Hv Hm. unfold binary_round.
  assert (HL : 0 <= Z.log2 v < 800).
  { split; [apply Z.log2_nonneg|]. apply Z.log2_lt_pow2; lia. }
  assert (Hlog : Z.log2 (Z.pos m) = Z.log2 v - e).
  { rewrite Hm, log2_shift by lia. lia. }
  rewrite digits2_pos_log2, Hlog.
  replace (fexp prec emax (Z.log2 v - e + 1 + e)) with (Z.log2 v - 52)
    by (unfold fexp, emin, prec, emax; lia).
  destruct (shl_align m e (Z.log2 v - 52)) as [mz ez] eqn:Ea.
  assert (Hez : ez = Z.min e (Z.log2 v - 52)).
  { pose proof (shl_align_snd m e (Z.log2 v - 52)) as H.
    rewrite Ea in H. exact H. }
  assert (Hmz : Z.pos mz = v * 2 ^ (- ez)).
  { destruct (Z.le_gt_cases (Z.log2 v - 52) e) as [Hle | Hgt].
    - pose proof (shl_align_fst m e (Z.log2 v - 52) Hle) as H.
      rewrite Ea in H. cbn [fst] in H.
      rewrite H, Hm, <- Z.mul_assoc, <- Z.pow_add_r by lia.
      do 2 f_equal. lia.
    - unfold shl_align in Ea.
      destruct (Z.log2 v - 52 - e) eqn:Ed; try lia;
        injection Ea as <- <-; rewrite Hm; do 2 f_equal. }
  apply binary_round_aux_denotes; try lia.
  rewrite Hmz, log2_shift by lia. lia.
Qed.

Lemma of_Z_denotes (v : Z) :
  0 <= v < 2 ^ 800 -> denotes (of_Z v) (round v).
Proof.
  intros Hv. unfold of_Z, binary_normalize.
  destruct v as [|p|p]; try lia.
  - reflexivity.
  - apply binary_round_denotes; lia.
Qed.

(** A float below [2^53] has a non-positive exponent. *)
Lemma denotes_small (m : positive) (e v : Z) :
  denotes (S754_finite false m e) v -> v < 2 ^ 53 ->
  - 52 <= e <= 0 /\ Z.pos m = v * 2 ^ (- e).
Proof.
  intros (Hv & Hcan & Hm) Hsmall.
  pose proof (Z.log2_spec (Z.pos m) ltac:(lia)) as [Hlo Hhi].
  rewrite Hcan in Hlo, Hhi. change (Z.succ 52) with 53 in Hhi.
  destruct (Z.le_gt_cases e 0) as [He | He].
  - replace (Z.max e 0) with 0 in Hm by lia.
    replace (Z.max (- e) 0) with (- e) in Hm by lia.
    split; [|lia]. split; [|lia].
    destruct (Z.le_gt_cases (- 52) e) as [|Hlt]; [assumption|].
    assert (2 ^ 53 <= 2 ^ (- e)) by (apply Z.pow_le_mono_r; lia). nia.
  - replace (Z.max e 0) with e in Hm by lia.
    replace (Z.max (- e) 0) with 0 in Hm by lia.
    assert (2 ^ 1 <= 2 ^ e) by (apply Z.pow_le_mono_r; lia). nia.
Qed.

Lemma SFmul_denotes (fx fy : spec_float) (x y : Z) :
  denotes fx x -> denotes fy y -> x < 2 ^ 53 -> y < 2 ^ 53 ->
  denotes (mul fx fy) (round (x * y)).
Proof.
  intros Hx Hy Bx By.
  destruct fx as [[|]| | |[|] mx ex]; try contradiction;
    destruct fy as [[|]| | |[|] my ey]; try contradiction;
    cbn [mul SFmul xorb].
  - cbn in Hx, Hy. subst. reflexivity.
  - cbn in Hx. subst. reflexivity.
  - cbn in Hy. subst. rewrite Z.mul_0_r. reflexivity.
  - pose proof Hx as (Hx0 & Hcx & _). pose proof Hy as (Hy0 & Hcy & _).
    destruct (denotes_small _ _ _ Hx Bx) as [Hex Hmx].
    destruct (denotes_small _ _ _ Hy By) as [Hey Hmy].
    apply binary_round_aux_denotes.
    + lia.
    + split; [nia|].
      assert (x * y < 2 ^ 53 * 2 ^ 53) by nia.
      assert (2 ^ 53 * 2 ^ 53 < 2 ^ 900)
        by (rewrite <- Z.pow_add_r by lia; apply Z.pow_lt_mono_r; lia).
      lia.
    + rewrite Pos2Z.inj_mul, Hmx, Hmy.
      replace (- (ex + ey)) with (- ex + - ey) by lia.
      rewrite Z.pow_add_r by lia. lia.
    + rewrite Pos2Z.inj_mul.
      pose proof (Z.log2_mul_below (Z.pos mx) (Z.pos my) ltac:(lia) ltac:(lia)).
      lia.
Qed.

Lemma SFadd_denotes (fx fy : spec_float) (x y : Z) :
  denotes fx x -> denotes fy y -> x < 2 ^ 700 -> 0 < y < 2 ^ 53 ->
  denotes (add fx fy) (round (x + y)).
Proof.
  intros Hx Hy Bx By.
  destruct fy as [[|]| | |[|] my ey]; try contradiction.
  { cbn in Hy. lia. }
  destruct (denotes_small _ _ _ Hy ltac:(lia)) as [Hey Hmy].
  destruct fx as [[|]| | |[|] mx ex]; try contradiction; cbn [add SFadd].
  - cbn in Hx. subst x. rewrite Z.add_0_l, round_small by lia. exact Hy.
  - destruct Hx as (Hx0 & Hcx & Hmx). cbn [cond_Zopp].
    set (ez := Z.min ex ey).
    rewrite !shl_align_fst by (unfold ez; lia).
    pose proof (Z.log2_spec (Z.pos mx) ltac:(lia)) as [Hlo Hhi].
    rewrite Hcx in Hlo, Hhi. change (Z.succ 52) with 53 in Hhi.
    assert (Hez : - 52 <= ez <= 0).
    { unfold ez. destruct (Z.le_gt_cases ey ex); [lia|].
      split; [|lia]. replace (Z.min ex ey) with ex by lia.
      destruct (Z.le_gt_cases (- 52) ex) as [|Hlt]; [assumption|].
      replace (Z.max ex 0) with 0 in Hmx by lia.
      replace (Z.max (- ex) 0) with (- ex) in Hmx by lia.
      assert (2 ^ 53 <= 2 ^ (- ex)) by (apply Z.pow_le_mono_r; lia). nia. }
    assert (Hpx : 0 < 2 ^ (ex - ez)) by (apply pow2_pos; unfold ez; lia).
    assert (Hpy : 0 < 2 ^ (ey - ez)) by (apply pow2_pos; unfold ez; lia).
    assert (Ex : Z.pos mx * 2 ^ (ex - ez) = x * 2 ^ (- ez)).
    { destruct (Z.le_gt_cases ex 0).
      - replace (Z.max ex 0) with 0 in Hmx by lia.
        replace (Z.max (- ex) 0) with (- ex) in Hmx by lia.
        replace (Z.pos mx) with (x * 2 ^ (- ex)) by lia.
        rewrite <- Z.mul_assoc, <- Z.pow_add_r by (unfold ez; lia).
        do 2 f_equal. lia.
      - replace (Z.max ex 0) with ex in Hmx by lia.
        replace (Z.max (- ex) 0) with 0 in Hmx by lia.
        replace x with (Z.pos mx * 2 ^ ex) by lia.
        rewrite <- !Z.mul_assoc, <- Z.pow_add_r by lia.
        do 2 f_equal; lia. }
    assert (Ey : Z.pos my * 2 ^ (ey - ez) = y * 2 ^ (- ez)).
    { rewrite Hmy, <- Z.mul_assoc, <- Z.pow_add_r by (unfold ez; lia).
      do 2 f_equal. lia. }
    destruct (Z.pos mx * 2 ^ (ex - ez) + Z.pos my * 2 ^ (ey - ez))
      as [|s|s] eqn:Es;
      try lia.
    cbn [binary_normalize].
    apply binary_round_denotes; lia.
Qed.

Lemma fma_denotes (fx fy fz : spec_float) (x y z : Z) :
  denotes fx x -> denotes fy y -> denotes fz z ->
  x < 2 ^ 53 -> y < 2 ^ 53 -> 0 < z < 2 ^ 53 ->
  denotes (fma fx fy fz) (round (x * y + z)).
Proof.
  intros Hx Hy Hz Bx By Bz.
  destruct fz as [[|]| | |[|] mz ez]; try contradiction.
  { cbn in Hz. lia. }
  destruct (denotes_small _ _ _ Hz ltac:(lia)) as [Hez Hmz].
  assert (Hzero : forall f, denotes f 0 -> f = S754_zero false).
  { intros [[|]| | |[|] m e]; cbn; try contradiction; [reflexivity | lia]. }
  destruct (Z.eq_dec (x * y) 0) as [E0 | Hne].
  - (* the product is zero *)
    assert (Hp : mul fx fy = S754_zero false).
    { apply Hzero. pose proof (SFmul_denotes fx fy x y Hx Hy Bx By) as H.
      rewrite E0 in H. exact H. }
    assert (Hf : fma fx fy (S754_finite false mz ez)
                 = add (mul fx fy) (S754_finite false mz ez)).
    { destruct fx as [[|]| | |[|] mx ex]; try contradiction;
        destruct fy as [[|]| | |[|] my ey]; try contradiction; try reflexivity.
      destruct Hx as [? _], Hy as [? _]. nia. }
    rewrite Hf, Hp, E0, Z.add_0_l, round_small by lia. exact Hz.
  - destruct fx as [[|]| | |[|] mx ex]; try contradiction;
      [cbn in Hx; subst x; lia|].
    destruct fy as [[|]| | |[|] my ey]; try contradiction;
      [cbn in Hy; subst y; lia|].
    pose proof Hx as (Hx0 & Hcx & _). pose proof Hy as (Hy0 & Hcy & _).
    destruct (denotes_small _ _ _ Hx Bx) as [Hex Hmx].
    destruct (denotes_small _ _ _ Hy By) as [Hey Hmy].
    cbn [fma xorb cond_Zopp].
    set (e := Z.min (ex + ey) ez).
    rewrite !shl_align_fst by (unfold e; lia).
    assert (Ep : Z.pos (mx * my) * 2 ^ (ex + ey - e) = x * y * 2 ^ (- e)).
    { rewrite Pos2Z.inj_mul, Hmx, Hmy.
      replace (- e) with (- ex + (- ey + (ex + ey - e))) by lia.
      rewrite !Z.pow_add_r by (unfold e; lia). lia. }
    assert (Ez : Z.pos mz * 2 ^ (ez - e) = z * 2 ^ (- e)).
    { rewrite Hmz, <- Z.mul_assoc, <- Z.pow_add_r by (unfold e; lia).
      do 2 f_equal; lia. }
    assert (Hpp : 0 < 2 ^ (ex + ey - e)) by (apply pow2_pos; unfold e; lia).
    assert (Hpz : 0 < 2 ^ (ez - e)) by (apply pow2_pos; unfold e; lia).
    destruct (Z.pos (mx * my) * 2 ^ (ex + ey - e) + Z.pos mz * 2 ^ (ez - e))
      as [|s|s] eqn:Es; try lia.
    cbn [binary_normalize].
    assert (x * y < 2 ^ 53 * 2 ^ 53) by nia.
    assert (2 ^ 53 * 2 ^ 53 + 2 ^ 53 < 2 ^ 800) by (vm_compute; reflexivity).
    apply binary_round_denotes; [unfold e; lia | split; [nia | lia] | lia].
Qed.

Lemma SFltb_denotes (fa fb : spec_float) (a b : Z) :
  denotes fa a -> denotes fb b -> a < 2 ^ 53 -> b < 2 ^ 53 ->
  SFltb fa fb = (a <? b).
Proof.
  intros Ha Hb Ba Bb. unfold SFltb.
  destruct fa as [[|]| | |[|] ma ea]; try contradiction;
    destruct fb as [[|]| | |[|] mb eb]; try contradiction; cbn [SFcompare].
  - cbn in Ha, Hb. subst. reflexivity.
  - cbn in Ha. subst. destruct Hb as [Hb _]. symmetry. apply Z.ltb_lt. lia.
  - cbn in Hb. subst. destruct Ha as [Ha _]. symmetry. apply Z.ltb_ge. lia.
  - pose proof Ha as (Ha0 & Hca & _). pose proof Hb as (Hb0 & Hcb & _).
    destruct (denotes_small _ _ _ Ha Ba) as [Hea Hma].
    destruct (denotes_small _ _ _ Hb Bb) as [Heb Hmb].
    pose proof (Z.log2_spec (Z.pos ma) ltac:(lia)) as [Hla Hha].
    pose proof (Z.log2_spec (Z.pos mb) ltac:(lia)) as [Hlb Hhb].
    rewrite Hca in Hla, Hha. rewrite Hcb in Hlb, Hhb.
    change (Z.succ 52) with 53 in *.
    assert (Hpa : 0 < 2 ^ (- ea)) by (apply pow2_pos; lia).
    assert (Hpb : 0 < 2 ^ (- eb)) by (apply pow2_pos; lia).
    destruct (Z.compare_spec ea eb) as [Heq | Hlt | Hgt].
    + subst eb. rewrite Pos.compare_cont_spec. cbn [Pos.switch_Eq].
      change (Pos.compare ma mb) with (Z.compare (Z.pos ma) (Z.pos mb)).
      destruct (Z.compare_spec (Z.pos ma) (Z.pos mb));
        destruct (Z.ltb_spec a b); try reflexivity; nia.
    + assert (2 * 2 ^ (- eb) <= 2 ^ (- ea)).
      { replace (- ea) with (Z.succ (- eb) + (eb - ea - 1)) by lia.
        rewrite Z.pow_add_r, Z.pow_succ_r by lia.
        assert (0 < 2 ^ (eb - ea - 1)) by (apply pow2_pos; lia). nia. }
      symmetry. apply Z.ltb_lt. nia.
    + assert (2 * 2 ^ (- ea) <= 2 ^ (- eb)).
      { replace (- eb) with (Z.succ (- ea) + (ea - eb - 1)) by lia.
        rewrite Z.pow_add_r, Z.pow_succ_r by lia.
        assert (0 < 2 ^ (ea - eb - 1)) by (apply pow2_pos; lia). nia. }
      symmetry. apply Z.ltb_ge. nia.
Qed.

Lemma SFcompare_antisym (x y : spec_float) :
  SFcompare y x = option_map CompOpp (SFcompare x y).
Proof.
  destruct x as [[|]|[|]| |sx mx ex], y as [[|]|[|]| |sy my ey];
    try reflexivity; try (destruct sx; reflexivity);
    try (destruct sy; reflexivity).
  cbn [SFcompare option_map]. f_equal.
  rewrite (Z.compare_antisym ex ey).
  pose proof (Pos.compare_cont_antisym mx my Eq) as Hm. cbn [CompOpp] in Hm.
  destruct sx, sy; try reflexivity;
    destruct (ex ?= ey); cbn [CompOpp]; try reflexivity.
  - rewrite <- Hm, CompOpp_involutive. reflexivity.
  - symmetry. exact Hm.
Qed.

Lemma SFcompare_Eq_finite (sx : bool) (mx : positive) (ex : Z)
    (sy : bool) (my : positive) (ey : Z) :
  SFcompare (S754_finite sx mx ex) (S754_finite sy my ey) = Some Eq ->
  S754_finite sx mx ex = S754_finite sy my ey.
Proof.
  cbn [SFcompare]. intros H. injection H as H.
  destruct sx, sy; try discriminate;
    destruct (Z.compare_spec ex ey); try discriminate; subst ey;
    rewrite Pos.compare_cont_spec in H; cbn [Pos.switch_Eq] in H;
    destruct (Pos.compare_spec mx my); try discriminate; subst; reflexivity.
Qed.

Lemma SFltb_cases (x y : spec_float) :
  match SFcompare x y with
  | Some Lt => SFltb x y = true /\ SFltb y x = false
  | Some Gt => SFltb x y = false /\ SFltb y x = true
  | _ => SFltb x y = false /\ SFltb y x = false
  end.
Proof.
  unfold SFltb. rewrite (SFcompare_antisym x y).
  destruct (SFcompare x y) as [[| |]|]; cbn; auto.
Qed.

Ltac minmax_comm H :=
  lazymatch goal with
  | |- context [SFltb (S754_finite ?sx ?mx ?ex) (S754_finite ?sy ?my ?ey)] =>
      pose proof (SFcompare_Eq_finite sx mx ex sy my ey) as He;
      pose proof (SFcompare_Eq_finite sy my ey sx mx ex) as He';
      rewrite (SFcompare_antisym (S754_finite sx mx ex)
                                 (S754_finite sy my ey)) in He';
      destruct (SFcompare (S754_finite sx mx ex) (S754_finite sy my ey))
        as [[| |]|] eqn:Ec; [| | |discriminate Ec];
      destruct H as [H1 H2]; rewrite ?H1, ?H2; try reflexivity;
      try (symmetry; apply He; reflexivity); try (apply He; reflexivity)
  | |- _ =>
      repeat match goal with s : bool |- _ => destruct s end;
      cbn in H; destruct H as [H1 H2]; rewrite ?H1, ?H2; reflexivity
  end.

Lemma Min_comm (x y : spec_float) : Min x y = Min y x.
Proof.
  pose proof (SFltb_cases x y) as H.
  destruct x as [[|]|[|]| |sx mx ex], y as [[|]|[|]| |sy my ey];
    cbn [Min]; try reflexivity; minmax_comm H.
Qed.

Lemma Max_comm (x y : spec_float) : Max x y = Max y x.
Proof.
  pose proof (SFltb_cases y x) as H.
  destruct x as [[|]|[|]| |sx mx ex], y as [[|]|[|]| |sy my ey];
    cbn [Max]; try reflexivity; minmax_comm H.
Qed.

Lemma denotes_trunc (f : float64) (v : Z) : denotes f v -> trunc f = Some v.
Proof.
  destruct f as [[|]| | |[|] m e]; cbn [denotes trunc cond_Zopp];
    try contradiction.
  - intros ->. reflexivity.
  - intros (Hv & _ & Hm). f_equal.
    destruct (Z.leb_spec 0 e).
    + replace (Z.max e 0) with e in Hm by lia.
      replace (Z.max (- e) 0) with 0 in Hm by lia. lia.
    + replace (Z.max e 0) with 0 in Hm by lia.
      replace (Z.max (- e) 0) with (- e) in Hm by lia.
      assert (0 < 2 ^ (- e)) by (apply pow2_pos; lia).
      replace (Z.pos m) with (v * 2 ^ (- e)) by lia.
      rewrite Z.div_mul by lia. reflexivity.
Qed.

(** The conversion of an integer below [2^53] is exact. *)
Lemma of_Z_exact (v : Z) : 0 <= v < 2 ^ 53 -> denotes (of_Z v) v.
Proof.
  intros Hv. rewrite <- (round_small v) at 2 by lia.
  apply of_Z_denotes.
  assert (2 ^ 53 < 2 ^ 800) by (apply Z.pow_lt_mono_r; lia). lia.
Qed.

Lemma Min_denotes (fa fb : float64) (a b : Z) :
  denotes fa a -> denotes fb b -> a < 2 ^ 53 -> b < 2 ^ 53 ->
  denotes (Min fa fb) (Z.min a b).
Proof.
  intros Ha Hb Ba Bb.
  assert (E : Min fa fb = if a <? b then fa else fb).
  { rewrite <- (SFltb_denotes fa fb a b Ha Hb Ba Bb).
    destruct fa as [[|]| | |[|] ma ea]; try contradiction;
      destruct fb as [[|]| | |[|] mb eb]; try contradiction; reflexivity. }
  rewrite E. destruct (Z.ltb_spec a b).
  - replace (Z.min a b) with a by lia. exact Ha.
  - replace (Z.min a b) with b by lia. exact Hb.
Qed.

Lemma Max_denotes (fa fb : float64) (a b : Z) :
  denotes fa a -> denotes fb b -> a < 2 ^ 53 -> b < 2 ^ 53 ->
  denotes (Max fa fb) (Z.max a b).
Proof.
  intros Ha Hb Ba Bb.
  assert (E : Max fa fb = if b <? a then fa else fb).
  { rewrite <- (SFltb_denotes fb fa b a Hb Ha Bb Ba).
    destruct fa as [[|]| | |[|] ma ea]; try contradiction;
      destruct fb as [[|]| | |[|] mb eb]; try contradiction; reflexivity. }
  rewrite E. destruct (Z.ltb_spec b a).
  - replace (Z.max a b) with a by lia. exact Ha.
  - replace (Z.max a b) with b by lia. exact Hb.
Qed.

End Float64Facts.

(** ** The pair priority *)

Section PriorityFacts.

Import Float64 Float64Facts.

Variable fused : bool.
Variable uint64_out_of_range : float64 -> Z.
Variable scs : setCandidateStats.

Lemma getPriority_value_mono (a b a' b' : Z) :
  0 <= Z.min a b -> 0 <= Z.max a b ->
  Z.min a b <= Z.min a' b' -> Z.max a b <= Z.max a' b' ->
  getPriority_value fused a b <= getPriority_value fused a' b'.
Proof.
  intros H0 H1 Hmin Hmax. unfold getPriority_value.
  assert (H2 : round (2 * Z.max a b) <= round (2 * Z.max a' b'))
    by (apply round_mono; lia).
  pose proof (round_nonneg (2 * Z.max a b) ltac:(lia)).
  destruct fused; apply round_mono; try lia.
  - pose proof (round_nonneg ((2 ^ 32 - 1) * Z.min a b) ltac:(lia)). lia.
  - assert (round ((2 ^ 32 - 1) * Z.min a b)
            <= round ((2 ^ 32 - 1) * Z.min a' b')) by (apply round_mono; lia).
    lia.
Qed.

Lemma getPriority_value_range (lp rp : Z) :
  0 <= lp < 2 ^ 31 -> 0 <= rp < 2 ^ 31 ->
  0 <= getPriority_value fused lp rp <= 2 ^ 63.
Proof.
  intros Hl Hr. split.
  - transitivity (getPriority_value fused 0 0).
    + destruct fused; vm_compute; discriminate.
    + apply getPriority_value_mono; lia.
  - transitivity (getPriority_value fused (2 ^ 31 - 1) (2 ^ 31 - 1)).
    + apply getPriority_value_mono; lia.
    + destruct fused; vm_compute; discriminate.
Qed.

(** On non-negative [int32] arguments the float of [getPriority] is the
    integer [getPriority_value]. *)
Lemma getPriority_float_denotes (lp rp : Z) :
  0 <= lp < 2 ^ 31 -> 0 <= rp < 2 ^ 31 ->
  denotes (getPriority_float fused lp rp) (getPriority_value fused lp rp).
Proof.
  intros Hl Hr.
  destruct (Z.eq_dec (Z.max lp rp) 0) as [Hz | Hnz].
  { assert (lp = 0) by lia. assert (rp = 0) by lia. subst.
    destruct fused; vm_compute; reflexivity. }
  assert (Dl : denotes (of_Z lp) lp) by (apply of_Z_exact; lia).
  assert (Dr : denotes (of_Z rp) rp) by (apply of_Z_exact; lia).
  pose proof (Min_denotes _ _ _ _ Dr Dl ltac:(lia) ltac:(lia)) as Dlo.
  pose proof (Max_denotes _ _ _ _ Dr Dl ltac:(lia) ltac:(lia)) as Dhi.
  rewrite (Z.min_comm rp lp) in Dlo. rewrite (Z.max_comm rp lp) in Dhi.
  assert (Dc : denotes (of_Z (2 ^ 32 - 1)) (2 ^ 32 - 1))
    by (apply of_Z_exact; lia).
  assert (D2 : denotes (of_Z 2) 2) by (apply of_Z_exact; lia).
  pose proof (SFmul_denotes _ _ _ _ D2 Dhi ltac:(lia) ltac:(lia)) as Dh.
  assert (Eh : round (2 * Z.max lp rp) = 2 * Z.max lp rp)
    by (apply round_small; lia).
  unfold getPriority_float, getPriority_value.
  destruct fused.
  - apply fma_denotes; try assumption; lia.
  - pose proof (SFmul_denotes _ _ _ _ Dc Dlo ltac:(lia) ltac:(lia)) as Dp.
    apply SFadd_denotes; try assumption; [|lia].
    assert (round ((2 ^ 32 - 1) * Z.min lp rp) <= round (2 ^ 63))
      by (apply round_mono; lia).
    assert (round (2 ^ 63) < 2 ^ 700) by (vm_compute; reflexivity).
    lia.
Qed.

Lemma getPriority_in_range (lp rp : Z) :
  0 <= lp < 2 ^ 31 -> 0 <= rp < 2 ^ 31 ->
  getPriority fused uint64_out_of_range scs lp rp
  = getPriority_value fused lp rp.
Proof.
  intros Hl Hr. pose proof (getPriority_value_range lp rp Hl Hr).
  unfold getPriority, uint64_of_float64.
  rewrite (denotes_trunc _ _ (getPriority_float_denotes lp rp Hl Hr)).
  destruct (Z.leb_spec 0 (getPriority_value fused lp rp)); [|lia].
  destruct (Z.ltb_spec (getPriority_value fused lp rp) (2 ^ 64));
    [reflexivity|lia].
Qed.

End PriorityFacts.

(** C2 (the code falls short of it): for two host candidates, priority
    [2130706431] on both sides, [getPriority] returns
    [9151314440652587008], with or without fusing and whatever the
    platform does out of range, where [(2^32 - 1) * min + 2 * max] is
    [9151314440652587007]: the formula is evaluated in [float64], whose
    53 bits do not hold the integer. *)
Theorem getPriority_host_off_by_one
    (fused : bool) (uint64_out_of_range : Float64.float64 -> Z)
    (scs : setCandidateStats) :
  getPriority fused uint64_out_of_range scs 2130706431 2130706431
  = 9151314440652587008
  /\ priority_formula 2130706431 2130706431 = 9151314440652587007.
Proof. destruct fused; split; vm_compute; reflexivity. Qed.

(** X24: for non-negative [int32] arguments the result is a [uint64]
    value reached without wrap-around, and it is exactly
    [(2^32 - 1) * min + 2 * max] whenever that integer is below [2^53]. *)
Theorem getPriority_exact_below_2_53
    (fused : bool) (uint64_out_of_range : Float64.float64 -> Z)
    (scs : setCandidateStats) (lp rp : Z) :
  0 <= lp < 2 ^ 31 -> 0 <= rp < 2 ^ 31 ->
  0 <= getPriority fused uint64_out_of_range scs lp rp < 2 ^ 64
  /\ (priority_formula lp rp < 2 ^ 53 ->
      getPriority fused uint64_out_of_range scs lp rp = priority_formula lp rp).
Proof.
  intros Hl Hr.
  rewrite getPriority_in_range by assumption.
  pose proof (getPriority_value_range fused lp rp Hl Hr).
  split; [lia|]. unfold priority_formula, getPriority_value. intros Hsmall.
  rewrite (Float64Facts.round_small (2 * _)) by lia.
  destruct fused.
  - apply Float64Facts.round_small. lia.
  - rewrite (Float64Facts.round_small ((2 ^ 32 - 1) * _)) by lia.
    apply Float64Facts.round_small. lia.
Qed.

Lemma getPriority_exact_below_2_53_witness :
  getPriority false uint64_saturating snapshot_empty 0 0
  = priority_formula 0 0
  /\ getPriority true uint64_saturating snapshot_empty 2000000 2130706431
     = priority_formula 2000000 2130706431.
Proof.
  split.
  - apply (proj2 (getPriority_exact_below_2_53 false uint64_saturating
                    snapshot_empty 0 0 ltac:(lia) ltac:(lia))).
    unfold priority_formula. lia.
  - apply (proj2 (getPriority_exact_below_2_53 true uint64_saturating
                    snapshot_empty 2000000 2130706431 ltac:(lia) ltac:(lia))).
    unfold priority_formula. lia.
Defined.

(** C4: swapping the local and the remote priority never changes the
    result of [getPriority]. *)
Theorem getPriority_symmetric
    (fused : bool) (uint64_out_of_range : Float64.float64 -> Z)
    (scs : setCandidateStats) (a b : Z) :
  getPriority fused uint64_out_of_range scs a b
  = getPriority fused uint64_out_of_range scs b a.
Proof.
  unfold getPriority, getPriority_float.
  rewrite (Float64Facts.Min_comm (Float64.of_Z b) (Float64.of_Z a)).
  rewrite (Float64Facts.Max_comm (Float64.of_Z b) (Float64.of_Z a)).
  reflexivity.
Qed.

(** C5 (as stated) fails: the [uint32] values [2^31 - 1] and [2^31]
    next to [5] have the same smaller one, and the larger one grows; as
    [int32], [2^31] is [-2^31], the float of the formula is negative and,
    where the conversion to [uint64] saturates, the result drops to
    zero. *)
Lemma getPriority_uint32_not_monotone :
  Z.min 5 (2 ^ 31 - 1) = Z.min 5 (2 ^ 31)
  /\ Z.max 5 (2 ^ 31 - 1) <= Z.max 5 (2 ^ 31)
  /\ getPriority false uint64_saturating snapshot_empty
       (int32_of_uint32 5) (int32_of_uint32 (2 ^ 31 - 1))
     = 25769803769
  /\ getPriority false uint64_saturating snapshot_empty
       (int32_of_uint32 5) (int32_of_uint32 (2 ^ 31))
     = 0
  /\ ~ getPriority false uint64_saturating snapshot_empty
         (int32_of_uint32 5) (int32_of_uint32 (2 ^ 31 - 1))
       <= getPriority false uint64_saturating snapshot_empty
            (int32_of_uint32 5) (int32_of_uint32 (2 ^ 31)).
Proof.
  repeat split; try (vm_compute; reflexivity).
  - vm_compute. discriminate.
  - vm_compute. intros H. apply H. reflexivity.
Qed.

(** C5 (amended): on the non-negative values of the [int32] parameters,
    the [uint32] values below [2^31], [getPriority] is non-decreasing in
    the smaller argument when the larger is fixed, and in the larger
    argument when the smaller is fixed. *)
Theorem getPriority_monotone
    (fused : bool) (uint64_out_of_range : Float64.float64 -> Z)
    (scs : setCandidateStats) (a b a' b' : Z) :
  0 <= a < 2 ^ 31 -> 0 <= b < 2 ^ 31 ->
  0 <= a' < 2 ^ 31 -> 0 <= b' < 2 ^ 31 ->
  (Z.min a b <= Z.min a' b' -> Z.max a b = Z.max a' b' ->
   getPriority fused uint64_out_of_range scs a b
   <= getPriority fused uint64_out_of_range scs a' b')
  /\ (Z.min a b = Z.min a' b' -> Z.max a b <= Z.max a' b' ->
      getPriority fused uint64_out_of_range scs a b
      <= getPriority fused uint64_out_of_range scs a' b').
Proof.
  intros Ha Hb Ha' Hb'.
  rewrite !getPriority_in_range by assumption.
  split; intros Hmin Hmax; apply getPriority_value_mono; lia.
Qed.

Lemma getPriority_monotone_witness :
  getPriority false uint64_saturating snapshot_empty 2113929216 2130706431
  <= getPriority false uint64_saturating snapshot_empty 2130706431 2113929217
  /\ getPriority true uint64_saturating snapshot_empty 16777215 2113929216
     <= getPriority true uint64_saturating snapshot_empty 2130706431 16777215.
Proof.
  split.
  - apply (proj1 (getPriority_monotone false uint64_saturating snapshot_empty
                    2113929216 2130706431 2130706431 2113929217
                    ltac:(lia) ltac:(lia) ltac:(lia) ltac:(lia))); lia.
  - apply (proj2 (getPriority_monotone true uint64_saturating snapshot_empty
                    16777215 2113929216 2130706431 16777215
                    ltac:(lia) ltac:(lia) ltac:(lia) ltac:(lia))); lia.
Defined.

(** ** The snapshot *)

Lemma newSetCandidateStats_fold (stats : list Stats)
    (nominated : list candidatePair) (cands : list ICECandidateStats) :
  fold_left newSetCandidateStats_step stats (nominated, cands)
  = (nominated ++ nominated_pairs stats, cands ++ candidate_records stats).
Proof.
  revert nominated cands.
  induction stats as [|v stats IH]; intros nominated cands; simpl.
  - by rewrite !app_nil_r.
  - unfold nominated_pairs, candidate_records in *.
    destruct v as [t | t | kind]; simpl.
    + destruct (Nominated t); rewrite IH; simpl; by rewrite <- ?app_assoc.
    + rewrite IH. by rewrite <- app_assoc.
    + apply IH.
Qed.

(** A candidate record is in the snapshot exactly when the statistics
    collection holds it. *)
Lemma candidate_records_elem (stats : list Stats) (c : ICECandidateStats) :
  c ∈ candidate_records stats <-> CandidateStats c ∈ stats.
Proof.
  unfold candidate_records. rewrite list_elem_of_omap. split.
  - intros [v [Hv Hc]]. destruct v; simplify_eq. done.
  - intros Hc. by exists (CandidateStats c).
Qed.

(** A pair is in the snapshot exactly when the statistics collection holds
    a pair record with these identifiers whose nominated flag is set. *)
Lemma nominated_pairs_elem (stats : list Stats) (p : candidatePair) :
  p ∈ nominated_pairs stats <->
  exists t, PairStats t ∈ stats /\ Nominated t = true
            /\ p = {| localID := LocalCandidateID t;
                      remoteID := RemoteCandidateID t |}.
Proof.
  unfold nominated_pairs. rewrite list_elem_of_omap. split.
  - intros [v [Hv Hp]]. destruct v as [t | t | kind]; try discriminate.
    destruct (Nominated t) eqn:Hn; simplify_eq. by exists t.
  - intros [t [Ht [Hn ->]]]. exists (PairStats t). by rewrite Hn.
Qed.

(** C7: [newSetCandidateStats] puts every candidate record in the
    candidate collection and exactly the nominated pair records in the
    pair collection, both in the order of the enumeration; records of
    another kind are left out; the empty collection gives the empty
    snapshot. *)
Theorem newSetCandidateStats_partition :
  (forall stats : list Stats,
     newSetCandidateStats stats
     = {| candidates := candidate_records stats;
          nominatedCandidatePairs := nominated_pairs stats |})
  /\ (forall stats1 v stats2,
        candidates (newSetCandidateStats (stats1 ++ v :: stats2))
        = candidates (newSetCandidateStats stats1)
          ++ match v with CandidateStats t => [t] | _ => [] end
          ++ candidates (newSetCandidateStats stats2))
  /\ (forall stats1 v stats2,
        nominatedCandidatePairs (newSetCandidateStats (stats1 ++ v :: stats2))
        = nominatedCandidatePairs (newSetCandidateStats stats1)
          ++ match v with
             | PairStats t =>
                 if Nominated t
                 then [ {| localID := LocalCandidateID t;
                           remoteID := RemoteCandidateID t |} ]
                 else []
             | _ => []
             end
          ++ nominatedCandidatePairs (newSetCandidateStats stats2))
  /\ newSetCandidateStats []
     = snapshot_empty.
Proof.
  assert (E : forall stats : list Stats,
             newSetCandidateStats stats
             = {| candidates := candidate_records stats;
                  nominatedCandidatePairs := nominated_pairs stats |}).
  { intros stats. unfold newSetCandidateStats.
    by rewrite newSetCandidateStats_fold. }
  split; [exact E|]. split; [|split; [|reflexivity]].
  - intros stats1 v stats2. rewrite !E. simpl.
    unfold candidate_records. rewrite omap_app. simpl.
    by destruct v.
  - intros stats1 v stats2. rewrite !E. simpl.
    unfold nominated_pairs. rewrite omap_app. simpl.
    destruct v as [t | t | kind]; try done. by destruct (Nominated t).
Qed.

(** ** The lookup *)

Lemma getCandidateStats_loop_miss (cs : list ICECandidateStats) (id : string) :
  (forall c, c ∈ cs -> ID c <> id) ->
  getCandidateStats_loop cs id = ICECandidateStats_zero.
Proof.
  induction cs as [|c cs IH]; intros Hno; simpl; [reflexivity|].
  destruct (String.eqb_spec (ID c) id) as [Heq | Hne].
  - exfalso. apply (Hno c); [left | exact Heq].
  - apply IH. intros c' Hc'. apply Hno. by right.
Qed.

Lemma getCandidateStats_loop_first
    (pre : list ICECandidateStats) (c : ICECandidateStats)
    (post : list ICECandidateStats) (id : string) :
  ID c = id -> (forall c', c' ∈ pre -> ID c' <> id) ->
  getCandidateStats_loop (pre ++ c :: post) id = c.
Proof.
  intros Hc. induction pre as [|p pre IH]; intros Hno; simpl.
  - destruct (String.eqb_spec (ID c) id); [reflexivity | contradiction].
  - destruct (String.eqb_spec (ID p) id) as [Heq | Hne].
    + exfalso. apply (Hno p); [left | exact Heq].
    + apply IH. intros c' Hc'. apply Hno. by right.
Qed.

(** C6: [getCandidateStats] is a total function without an error result;
    on a snapshot without candidates, or without a candidate of the given
    identifier, it returns the zero value of the record. *)
Theorem getCandidateStats_not_found (scs : setCandidateStats) (id : string) :
  candidates scs = [] \/ (forall c, c ∈ candidates scs -> ID c <> id) ->
  getCandidateStats scs id = ICECandidateStats_zero.
Proof.
  intros H. unfold getCandidateStats. apply getCandidateStats_loop_miss.
  destruct H as [Hnil | Hno]; [|exact Hno].
  rewrite Hnil. intros c Hc. by apply elem_of_nil in Hc.
Qed.

Lemma getCandidateStats_not_found_witness :
  getCandidateStats snapshot_empty "L1"
  = ICECandidateStats_zero
  /\ getCandidateStats
       {| candidates :=
            [ {| ID := "L1"; NetworkType := 3; Protocol := "tcp";
                 CandidateType := 1; IP := "192.0.2.1"; Port := 8443;
                 RelayProtocol := ""; Priority := 100 |} ];
          nominatedCandidatePairs := [] |} "R9"
     = ICECandidateStats_zero.
Proof.
  split.
  - apply getCandidateStats_not_found. left. reflexivity.
  - apply getCandidateStats_not_found. right. simpl.
    intros c Hc. apply list_elem_of_singleton in Hc. subst c. simpl.
    discriminate.
Defined.

(** C10: when several candidate records carry the identifier,
    [getCandidateStats] returns the first of them in the order of the
    snapshot; nothing checks that identifiers are unique. *)
Theorem getCandidateStats_first_match
    (scs : setCandidateStats) (pre : list ICECandidateStats)
    (c : ICECandidateStats) (post : list ICECandidateStats) (id : string) :
  candidates scs = pre ++ c :: post ->
  ID c = id ->
  (forall c', c' ∈ pre -> ID c' <> id) ->
  getCandidateStats scs id = c.
Proof.
  intros Hcs Hc Hpre. unfold getCandidateStats. rewrite Hcs.
  by apply getCandidateStats_loop_first.
Qed.

Lemma getCandidateStats_first_match_witness :
  getCandidateStats
    {| candidates :=
         [ {| ID := "R1"; NetworkType := 3; Protocol := "tcp";
              CandidateType := 1; IP := "198.51.100.7"; Port := 9;
              RelayProtocol := ""; Priority := 200 |};
           {| ID := "L1"; NetworkType := 3; Protocol := "tcp";
              CandidateType := 1; IP := "192.0.2.1"; Port := 8443;
              RelayProtocol := ""; Priority := 100 |};
           {| ID := "L1"; NetworkType := 4; Protocol := "tcp";
              CandidateType := 1; IP := "2001:db8::1"; Port := 8443;
              RelayProtocol := ""; Priority := 999 |} ];
       nominatedCandidatePairs := [] |} "L1"
  = {| ID := "L1"; NetworkType := 3; Protocol := "tcp";
       CandidateType := 1; IP := "192.0.2.1"; Port := 8443;
       RelayProtocol := ""; Priority := 100 |}.
Proof.
  apply (getCandidateStats_first_match _
           [ {| ID := "R1"; NetworkType := 3; Protocol := "tcp";
                CandidateType := 1; IP := "198.51.100.7"; Port := 9;
                RelayProtocol := ""; Priority := 200 |} ]
           _
           [ {| ID := "L1"; NetworkType := 4; Protocol := "tcp";
                CandidateType := 1; IP := "2001:db8::1"; Port := 8443;
                RelayProtocol := ""; Priority := 999 |} ]).
  - reflexivity.
  - reflexivity.
  - intros c' Hc'. apply list_elem_of_singleton in Hc'. subst c'. simpl.
    discriminate.
Defined.

(** ** The report builder *)

Lemma fold_left_append {A B : Type} (f : A -> B) (l : list A) (init : list B) :
  fold_left (fun acc x => acc ++ [f x]) l init = init ++ map f l.
Proof.
  revert init. induction l as [|x l IH]; intros init; simpl.
  - by rewrite app_nil_r.
  - rewrite IH. by rewrite <- app_assoc.
Qed.

(** The slice returned by [getSetCandidates]: as many nil values as there
    are nominated pairs, then the reports. *)
Lemma getSetCandidates_eq
    (fused : bool) (uint64_out_of_range : Float64.float64 -> Z)
    (scs : setCandidateStats) :
  getSetCandidates fused uint64_out_of_range scs
  = replicate (length (nominatedCandidatePairs scs)) INil
    ++ map (report fused uint64_out_of_range scs) (nominatedCandidatePairs scs).
Proof. unfold getSetCandidates. apply fold_left_append. Qed.

Lemma getSetCandidates_length
    (fused : bool) (uint64_out_of_range : Float64.float64 -> Z)
    (scs : setCandidateStats) :
  length (getSetCandidates fused uint64_out_of_range scs)
  = (2 * length (nominatedCandidatePairs scs))%nat.
Proof.
  rewrite getSetCandidates_eq, length_app, length_replicate, length_map. lia.
Qed.

(** The reports are the second half of the slice, one per pair, in the
    order of the pairs. *)
Lemma getSetCandidates_lookup_report
    (fused : bool) (uint64_out_of_range : Float64.float64 -> Z)
    (scs : setCandidateStats)
    (i : nat) (ncp : candidatePair) :
  nominatedCandidatePairs scs !! i = Some ncp ->
  getSetCandidates fused uint64_out_of_range scs !! i = Some INil
  /\ getSetCandidates fused uint64_out_of_range scs
       !! (length (nominatedCandidatePairs scs) + i)%nat
     = Some (report fused uint64_out_of_range scs ncp).
Proof.
  intros Hi. rewrite getSetCandidates_eq. split.
  - rewrite lookup_app_l
      by (rewrite length_replicate; by eapply lookup_lt_Some).
    apply lookup_replicate_2. by eapply lookup_lt_Some.
  - rewrite lookup_app_r by (rewrite length_replicate; lia).
    rewrite length_replicate.
    replace (length (nominatedCandidatePairs scs) + i
             - length (nominatedCandidatePairs scs))%nat with i by lia.
    by rewrite list_lookup_fmap, Hi.
Qed.

(** C1 (the code falls short of it): on a snapshot with one nominated pair
    whose identifiers do not resolve, [getSetCandidates] returns two
    values, a nil and the report of the pair with zero-valued candidate
    fields, where the claim asks for one report. *)
Theorem getSetCandidates_one_unresolved_pair :
  forall (fused : bool) (uint64_out_of_range : Float64.float64 -> Z),
    getSetCandidates fused uint64_out_of_range
      {| candidates := [];
         nominatedCandidatePairs := [ {| localID := "L1"; remoteID := "R1" |} ] |}
    = [ INil;
        ISlice [ IUint64 0;
                 INetworkType 0; IString ""; ICandidateType 0;
                 IString ""; IInt32 0; IString "";
                 INetworkType 0; IString ""; ICandidateType 0;
                 IString ""; IInt32 0; IString "" ] ].
Proof. intros [] oor; vm_compute; reflexivity. Qed.

(** C3 (as stated) fails: on the snapshot of the scenario no returned
    value is a report with priority [429496730300]. *)
Lemma scenario_priority_differs :
  ~ (exists (fused : bool) (rest : list iface),
       ISlice (IUint64 429496730300 :: rest)
       ∈ getSetCandidates fused uint64_saturating scenario_snapshot).
Proof.
  intros (fused & rest & Hin).
  assert (E : getSetCandidates fused uint64_saturating scenario_snapshot
              = [ INil;
                  ISlice [ IUint64 429496729900;
                           INetworkType 0; IString ""; ICandidateType 0;
                           IString ""; IInt32 0; IString "";
                           INetworkType 0; IString ""; ICandidateType 0;
                           IString ""; IInt32 0; IString "" ] ])
    by (destruct fused; vm_compute; reflexivity).
  rewrite E in Hin.
  apply elem_of_cons in Hin as [Hin | Hin]; [discriminate|].
  apply list_elem_of_singleton in Hin. discriminate.
Qed.

(** C3 (amended): on the snapshot of the scenario the values returned by
    [getSetCandidates] hold exactly one report, and its priority is
    [(2^32 - 1) * 100 + 2 * 200 = 429496729900]. *)
Theorem scenario_report_priority :
  forall (fused : bool) (uint64_out_of_range : Float64.float64 -> Z),
    reports_of (getSetCandidates fused uint64_out_of_range scenario_snapshot)
    = [ [ IUint64 429496729900;
          INetworkType 0; IString ""; ICandidateType 0;
          IString ""; IInt32 0; IString "";
          INetworkType 0; IString ""; ICandidateType 0;
          IString ""; IInt32 0; IString "" ] ]
    /\ priority_formula 100 200 = 429496729900.
Proof. intros [] oor; vm_compute; split; reflexivity. Qed.

(** ** The signaling handler *)

Lemma write_after_gather_true (tr : list Event) (i : nat) (ok : bool) :
  write_after_gather false tr = true ->
  tr !! i = Some (Ev CWrite ok) ->
  exists j, (j < i)%nat /\ tr !! j = Some (Ev CRecvGatherComplete true).
Proof.
  revert i. induction tr as [|[c ok'] tr IH]; intros i Hchk Hi.
  - by rewrite lookup_nil in Hi.
  - destruct i as [|i].
    + simpl in Hi. injection Hi as -> ->. simpl in Hchk. discriminate.
    + simpl in Hi.
      destruct (decide (c = CRecvGatherComplete /\ ok' = true))
        as [[-> ->] | Hne].
      * exists 0%nat. split; [lia | reflexivity].
      * assert (Hchk' : write_after_gather false tr = true).
        { simpl in Hchk. destruct c; try exact Hchk; [|discriminate].
          destruct ok'; [|exact Hchk]. exfalso. by apply Hne. }
        destruct (IH i Hchk' Hi) as [j [Hj Hjg]].
        exists (S j). split; [lia | exact Hjg].
Qed.

Section HandlerFacts.

Context `{C : Collaborators}.

(** Case analysis on the results of the collaborators, innermost first. *)
Ltac destruct_result :=
  match goal with
  | |- context [match ?x with _ => _ end] =>
      lazymatch x with
      | context [match _ with _ => _ end] => fail
      | _ => destruct x eqn:?
      end
  end.

Ltac run_handler :=
  unfold serve, doSignaling, call_or_panic, check_or_panic,
    recv_gatherComplete, Write, Header_Set, log, panic, park,
    mbind, mret, Handler_bind, Handler_ret;
  simpl; repeat (destruct_result; simpl).

Lemma serve_write_after_gather (r_Body : bytes) :
  write_after_gather false (st_trace (final_state (serve r_Body))) = true.
Proof. run_handler; reflexivity. Qed.

(** Bytes reach the body only through a [Write]. *)
Lemma serve_body_written (r_Body : bytes) :
  body (st_w (final_state (serve r_Body))) <> [] ->
  exists ok, Ev CWrite ok ∈ st_trace (final_state (serve r_Body)).
Proof.
  run_handler; intros Hb; try (exfalso; by apply Hb);
    eexists; apply list_elem_of_In; simpl; eauto 20.
Qed.

(** A [Write] in the trace: the receive on [gatherComplete] has
    returned, on the session as [SetLocalDescription] left it, and the
    bytes written are the local description of the session as the
    receive returned it. *)
Lemma serve_write_gathered (r_Body : bytes) (i : nat) (ok : bool) :
  st_trace (final_state (serve r_Body)) !! i = Some (Ev CWrite ok) ->
  exists (pcl pc0 pc : PeerConnection) (answer : SessionDescription)
         (response : bytes) (n : nat) (err : option error),
    pc_SetLocalDescription pcl answer = (pc0, None)
    /\ gatherComplete_recv pc0 = Some pc
    /\ json_Marshal (pc_LocalDescription pc) = inl response
    /\ conn_Write response = (n, err)
    /\ body (st_w (final_state (serve r_Body))) = take n response.
Proof.
  run_handler; intros Hi;
    try (apply list_elem_of_lookup_2, list_elem_of_In in Hi; simpl in Hi;
         exfalso; intuition discriminate).
  all: eexists _, _, _, _, _, _, _.
  all: repeat split; try eassumption; try reflexivity.
  all: match goal with
       | H : (pc_SetLocalDescription ?a ?b).2 = None |- _ =>
           transitivity ((pc_SetLocalDescription a b).1,
                         (pc_SetLocalDescription a b).2);
           [apply surjective_pairing | by rewrite H]
       end.
Qed.

End HandlerFacts.

(** C8: in every run of [doSignaling], a call of [w.Write] is made only
    when the receive on [gatherComplete] has returned: the receive
    ([gatherComplete_recv]) returned on the session as
    [SetLocalDescription] left it, its return comes earlier in the trace
    than the [Write], and the bytes handed to [Write] are the marshalled
    local description of the session as the receive returned it. *)
Theorem write_only_after_gatherComplete
    `{C : Collaborators} (r_Body : bytes) (i : nat) (ok : bool) :
  st_trace (final_state (serve r_Body)) !! i = Some (Ev CWrite ok) ->
  exists (pcl pc0 pc : PeerConnection) (answer : SessionDescription)
         (response : bytes) (n : nat) (err : option error) (j : nat),
    pc_SetLocalDescription pcl answer = (pc0, None)
    /\ gatherComplete_recv pc0 = Some pc
    /\ (j < i)%nat
    /\ st_trace (final_state (serve r_Body)) !! j
       = Some (Ev CRecvGatherComplete true)
    /\ json_Marshal (pc_LocalDescription pc) = inl response
    /\ conn_Write response = (n, err)
    /\ body (st_w (final_state (serve r_Body))) = take n response.
Proof.
  intros Hi.
  destruct (serve_write_gathered r_Body i ok Hi)
    as (pcl & pc0 & pc & answer & response & n & err
        & Hlocal & Hrecv & Hmarshal & Hwrite & Hbody).
  destruct (write_after_gather_true _ i ok
              (serve_write_after_gather r_Body) Hi) as (j & Hj & Hgather).
  exists pcl, pc0, pc, answer, response, n, err, j. tauto.
Qed.

Lemma write_only_after_gatherComplete_witness :
  exists (pcl pc0 pc : option bytes) (answer response : bytes)
         (n : nat) (err : option string) (j : nat),
    @pc_SetLocalDescription loopback pcl answer = (pc0, None)
    /\ @gatherComplete_recv loopback pc0 = Some pc
    /\ (j < 12)%nat
    /\ st_trace (final_state (@serve loopback body_object)) !! j
       = Some (Ev CRecvGatherComplete true)
    /\ @json_Marshal loopback (@pc_LocalDescription loopback pc) = inl response
    /\ @conn_Write loopback response = (n, err)
    /\ body (st_w (final_state (@serve loopback body_object)))
       = take n response.
Proof.
  apply (@write_only_after_gatherComplete loopback body_object 12 true).
  reflexivity.
Defined.

(** ** The request body and the decoder *)

Module JSONFacts.
Import JSON.

Ltac scan_cases :=
  unfold scanner_step, do_stateBeginValue, do_stateBeginString,
    do_state0, do_stateDot0, do_stateE0, do_stateESign, expect,
    do_stateEndValue, do_stateEndTop, pushParseState,
    replaceTop, error, to in *;
  repeat (case_match; simpl in *; subst; try discriminate; try tauto).

Lemma scanner_step_consistent (s : scanner) (c : Byte.byte) :
  consistent s -> consistent (scanner_step s c).2.
Proof.
  unfold consistent. destruct s as [st e ps]. simpl. intros H.
  destruct e.
  - destruct (H eq_refl) as [-> | ->]; scan_cases.
  - clear H. destruct st; scan_cases; unfold popParseState; simpl;
      case_match; simpl; intros; discriminate || by left.
Qed.

Lemma reset_consistent : consistent reset.
Proof. discriminate. Qed.

(** At the end of the text: a space ends the top-level value or leaves
    [endTop] as it is. *)
Lemma eof_not_end (s : scanner) :
  consistent s ->
  (scanner_step s Byte.x20).1 <> scanEnd -> eof s = false.
Proof.
  unfold consistent, eof. destruct s as [st e ps]. simpl. intros H.
  destruct e.
  - destruct (H eq_refl) as [-> | ->]; [|reflexivity].
    intros Hne. exfalso. apply Hne. reflexivity.
  - clear H. destruct st; try reflexivity; destruct ps as [|[] ps];
      simpl; intros Hne; try reflexivity; exfalso; by apply Hne.
Qed.

(** After the end of an object or an array the scanner is in
    [stateEndValue], or the top-level value is complete. *)
Lemma scanner_step_end (s s' : scanner) (c : Byte.byte) (r : Scan) :
  scanner_step s c = (r, s') ->
  r = scanEndObject \/ r = scanEndArray ->
  (do_stateEndValue s' Byte.x20).1 = scanEnd
  \/ do_stateEndValue s' Byte.x20 = (scanSkipSpace, s').
Proof.
  destruct s as [st e ps]. intros Hs Hr.
  assert (Hpop : exists s0, s' = popParseState s0).
  { destruct st; revert Hs; scan_cases;
      intros [= <- <-]; destruct Hr; try discriminate; eauto. }
  destruct Hpop as [[st0 e0 ps0] ->].
  unfold popParseState. simpl. destruct ps0 as [|p [|q ps0]]; simpl; auto.
Qed.

Lemma readValue_loop_None (buf : bytes) :
  forall (s : scanner) (n : nat),
    consistent s ->
    readValue_loop s buf n = None -> checkValid s buf = false.
Proof.
  induction buf as [|c buf IH]; intros s n Hs; simpl.
  - intros Hnone. apply eof_not_end; [assumption|].
    destruct (scanner_step s Byte.x20) as [[] s']; simpl;
      discriminate || by intros _.
  - pose proof (scanner_step_consistent s c Hs) as Hs'.
    pose proof (scanner_step_end s (scanner_step s c).2 c (scanner_step s c).1)
      as Hend.
    destruct (scanner_step s c) as [r s'] eqn:Hstep. simpl in Hs', Hend.
    specialize (Hend eq_refl).
    destruct r; try (by apply IH); try reflexivity; try discriminate.
    + destruct Hend as [Hend | Hend]; [by left| |].
      * destruct (do_stateEndValue s' Byte.x20) as [[] s'']; simpl in Hend;
          discriminate.
      * rewrite Hend. by apply IH.
    + destruct Hend as [Hend | Hend]; [by right| |].
      * destruct (do_stateEndValue s' Byte.x20) as [[] s'']; simpl in Hend;
          discriminate.
      * rewrite Hend. by apply IH.
Qed.

(** A body in which [Decode] finds no first value is not a JSON text. *)
Lemma readValue_None_not_Valid (body : bytes) :
  readValue body = None -> Valid body = false.
Proof. apply readValue_loop_None, reset_consistent. Qed.

End JSONFacts.

(** When [Decode] returns an error the run panics before the remote
    description is set. *)
Lemma decode_error_fails
    `{C : Collaborators} (r_Body : bytes) (e : error) :
  json_Decode r_Body = inr e ->
  phase (serve r_Body) = Failed
  /\ failed_from (serve r_Body) = Some AwaitingOffer
  /\ st_w (final_state (serve r_Body)) = ResponseWriter_new
  /\ body (st_w (final_state (serve r_Body))) = []
  /\ (forall ok, Ev CWrite ok ∉ st_trace (final_state (serve r_Body))).
Proof.
  intros Hdec. unfold serve, doSignaling.
  unfold call_or_panic at 2. rewrite Hdec.
  unfold call_or_panic, log, panic, mbind, mret, Handler_bind, Handler_ret.
  destruct api_NewPeerConnection as [pc | e0]; simpl;
    (split; [reflexivity|]); (split; [reflexivity|]);
    (split; [reflexivity|]); (split; [reflexivity|]);
    intros ok Hin; apply list_elem_of_In in Hin; simpl in Hin;
    intuition discriminate.
Qed.

(** C9 (as stated) fails: a session description followed by two more
    bytes is not well-formed JSON, yet [Decode] reads the description and
    leaves the rest of the body alone; the run goes through every state
    and the description comes back as the body of the response. *)
Lemma trailing_bytes_answered :
  JSON.Valid body_offer = true
  /\ JSON.Valid body_offer_trailing = false
  /\ JSON.readValue body_offer_trailing = Some (length body_offer)
  /\ phase (@serve loopback_json body_offer_trailing) = Responded
  /\ failed_from (@serve loopback_json body_offer_trailing) = None
  /\ body (st_w (final_state (@serve loopback_json body_offer_trailing)))
     = body_offer.
Proof. repeat split; vm_compute; reflexivity. Qed.

(** C9 (amended): behind the decoder of [encoding/json], when the body
    does not begin with a JSON value, or when the first value of the
    body does not unmarshal into a session description, the run panics
    before the remote description is set, in the state [AwaitingOffer],
    and ends in [Failed]; the response writer is untouched and [w.Write]
    is never called. *)
Theorem malformed_body_fails
    `{C : Collaborators}
    (unmarshal : bytes -> SessionDescription + error)
    (syntax_error : bytes -> error) (r_Body : bytes) :
  (forall b, json_Decode b = JSON.Decode unmarshal syntax_error b) ->
  JSON.readValue r_Body = None
  \/ (exists n e, JSON.readValue r_Body = Some n
                  /\ unmarshal (take n r_Body) = inr e) ->
  phase (serve r_Body) = Failed
  /\ failed_from (serve r_Body) = Some AwaitingOffer
  /\ st_w (final_state (serve r_Body)) = ResponseWriter_new
  /\ body (st_w (final_state (serve r_Body))) = []
  /\ (forall ok, Ev CWrite ok ∉ st_trace (final_state (serve r_Body))).
Proof.
  intros Hdecoder Hbody.
  assert (Hdec : exists e, json_Decode r_Body = inr e).
  { rewrite Hdecoder. unfold JSON.Decode.
    destruct Hbody as [-> | (n & e & -> & ->)]; eauto. }
  destruct Hdec as [e Hdec]. exact (decode_error_fails r_Body e Hdec).
Qed.

Lemma malformed_body_fails_witness :
  phase (@serve loopback_json body_text) = Failed
  /\ failed_from (@serve loopback_json body_text) = Some AwaitingOffer
  /\ st_w (final_state (@serve loopback_json body_text)) = ResponseWriter_new
  /\ body (st_w (final_state (@serve loopback_json body_text))) = []
  /\ (forall ok,
        Ev CWrite ok ∉ st_trace (final_state (@serve loopback_json body_text))).
Proof.
  apply (@malformed_body_fails loopback_json unmarshal_object
           syntax_error_text body_text).
  - intros b. reflexivity.
  - left. reflexivity.
Defined.

(** When no collaborator fails and gathering completes, the run goes
    through every state and the body is the marshalled local
    description. *)
Example serve_loopback_responds :
  phase (@serve loopback body_object) = Responded
  /\ body (st_w (final_state (@serve loopback body_object)))
     = body_object
  /\ header (st_w (final_state (@serve loopback body_object)))
       !! "Content-Type"%string
     = Some ["application/json"%string]
  /\ st_trace (final_state (@serve loopback body_object))
     = [ Ev CNewPeerConnection true; Ev COnICEConnectionStateChange true;
         Ev COnDataChannel true; Ev CDecode true;
         Ev CSetRemoteDescription true; Ev CGatheringCompletePromise true;
         Ev CCreateAnswer true; Ev CSetLocalDescription true;
         Ev CRecvGatherComplete true; Ev CLocalDescription true;
         Ev CMarshal true; Ev CHeaderSet true; Ev CWrite true ].
Proof. repeat split; vm_compute; reflexivity. Qed.

(** ** More on the pair priority *)

Lemma round_shift_error (x s : Z) :
  0 <= x -> 1 <= s ->
  - 2 ^ (s - 1) <= Float64.round_shift x s - x <= 2 ^ (s - 1).
Proof.
  intros Hx Hs.
  assert (Hh : 0 < 2 ^ (s - 1)) by (apply Float64Facts.pow2_pos; lia).
  assert (E : 2 ^ s = 2 * 2 ^ (s - 1)).
  { replace s with (Z.succ (s - 1)) at 1 by lia.
    rewrite Z.pow_succ_r by lia. reflexivity. }
  pose proof (Z.div_mod x (2 ^ s) ltac:(lia)) as Hdm.
  pose proof (Z.mod_pos_bound x (2 ^ s) ltac:(lia)) as Hb.
  unfold Float64.round_shift.
  destruct (Z.ltb_spec (x mod 2 ^ s) (2 ^ (s - 1))); cbn [orb].
  - lia.
  - destruct (Z.eqb_spec (x mod 2 ^ s) (2 ^ (s - 1))); cbn [andb];
      [destruct (Z.even (x / 2 ^ s))|]; lia.
Qed.

(** Below [2^63] rounding moves an integer by at most 512. *)
Lemma round_error (x : Z) :
  0 <= x < 2 ^ 63 -> - 512 <= Float64.round x - x <= 512.
Proof.
  intros Hx. unfold Float64.round.
  destruct (Z.ltb_spec x (2 ^ 53)); [lia|].
  assert (Hl : 53 <= Z.log2 x < 63).
  { split; [apply Z.log2_le_pow2; lia | apply Z.log2_lt_pow2; lia]. }
  pose proof (round_shift_error x (Z.log2 x - 52) ltac:(lia) ltac:(lia)).
  assert (2 ^ (Z.log2 x - 52 - 1) <= 2 ^ 9) by (apply Z.pow_le_mono_r; lia).
  lia.
Qed.

Lemma getPriority_value_error (fused : bool) (lp rp : Z) :
  0 <= lp < 2 ^ 31 -> 0 <= rp < 2 ^ 31 ->
  - 1024 <= getPriority_value fused lp rp - priority_formula lp rp <= 1024.
Proof.
  intros Hl Hr. unfold getPriority_value, priority_formula.
  set (lo := Z.min lp rp). set (hi := Z.max lp rp).
  assert (Hlo : 0 <= lo < 2 ^ 31) by (unfold lo; lia).
  assert (Hhi : 0 <= hi < 2 ^ 31) by (unfold hi; lia).
  clearbody lo hi.
  rewrite (Float64Facts.round_small (2 * hi)) by lia.
  destruct fused.
  - pose proof (round_error ((2 ^ 32 - 1) * lo + 2 * hi) ltac:(lia)). lia.
  - pose proof (round_error ((2 ^ 32 - 1) * lo) ltac:(lia)) as E1.
    pose proof (Float64Facts.round_nonneg ((2 ^ 32 - 1) * lo) ltac:(lia)).
    pose proof (round_error (Float64.round ((2 ^ 32 - 1) * lo) + 2 * hi)
                  ltac:(lia)) as E2.
    lia.
Qed.

(** X1: on non-negative [int32] arguments [getPriority] is within 1024
    of the integer [(2^32 - 1) * min + 2 * max]. *)
Theorem getPriority_within_1024
    (fused : bool) (uint64_out_of_range : Float64.float64 -> Z)
    (scs : setCandidateStats) (lp rp : Z) :
  0 <= lp < 2 ^ 31 -> 0 <= rp < 2 ^ 31 ->
  - 1024 <= getPriority fused uint64_out_of_range scs lp rp
            - priority_formula lp rp <= 1024.
Proof.
  intros Hl Hr. rewrite getPriority_in_range by assumption.
  by apply getPriority_value_error.
Qed.

Lemma getPriority_within_1024_witness :
  - 1024 <= getPriority false uint64_saturating snapshot_empty
              2130706431 2113929216
            - priority_formula 2130706431 2113929216 <= 1024.
Proof.
  apply (getPriority_within_1024 false uint64_saturating snapshot_empty
           2130706431 2113929216); lia.
Defined.

(** X2: the smaller argument decides the order: a pair whose smaller
    priority is below that of another pair never gets the higher result,
    whatever the larger priorities are. *)
Theorem getPriority_min_dominates
    (fused : bool) (uint64_out_of_range : Float64.float64 -> Z)
    (scs : setCandidateStats) (a b a' b' : Z) :
  0 <= a < 2 ^ 31 -> 0 <= b < 2 ^ 31 ->
  0 <= a' < 2 ^ 31 -> 0 <= b' < 2 ^ 31 ->
  Z.min a b < Z.min a' b' ->
  getPriority fused uint64_out_of_range scs a b
  <= getPriority fused uint64_out_of_range scs a' b'.
Proof.
  intros Ha Hb Ha' Hb' Hlt.
  rewrite !getPriority_in_range by assumption.
  unfold getPriority_value.
  set (lo := Z.min a b) in *. set (hi := Z.max a b).
  set (lo' := Z.min a' b') in *. set (hi' := Z.max a' b').
  assert (0 <= lo <= hi /\ hi < 2 ^ 31) by (unfold lo, hi; lia).
  assert (0 <= lo' <= hi' /\ hi' < 2 ^ 31) by (unfold lo', hi'; lia).
  clearbody lo hi lo' hi'.
  rewrite (Float64Facts.round_small (2 * hi)) by lia.
  rewrite (Float64Facts.round_small (2 * hi')) by lia.
  destruct fused; apply Float64Facts.round_mono; try lia.
  - pose proof (Float64Facts.round_nonneg ((2 ^ 32 - 1) * lo) ltac:(lia)). lia.
  - destruct (Z.lt_ge_cases ((2 ^ 32 - 1) * lo') (2 ^ 53)).
    + rewrite !Float64Facts.round_small by lia. lia.
    + pose proof (round_error ((2 ^ 32 - 1) * lo) ltac:(lia)).
      pose proof (round_error ((2 ^ 32 - 1) * lo') ltac:(lia)).
      lia.
Qed.

Lemma getPriority_min_dominates_witness :
  getPriority false uint64_saturating snapshot_empty 2113929215 2130706431
  <= getPriority false uint64_saturating snapshot_empty 2113929216 2113929216.
Proof.
  apply (getPriority_min_dominates false uint64_saturating snapshot_empty
           2113929215 2130706431 2113929216 2113929216); lia.
Defined.

(** X3: with a zero on one side the result is exactly twice the other
    priority, and it is at least twice the larger priority in general;
    so the result is zero only when both priorities are zero. *)
Theorem getPriority_zero_side
    (fused : bool) (uint64_out_of_range : Float64.float64 -> Z)
    (scs : setCandidateStats) (lp rp : Z) :
  0 <= lp < 2 ^ 31 -> 0 <= rp < 2 ^ 31 ->
  getPriority fused uint64_out_of_range scs 0 rp = 2 * rp
  /\ getPriority fused uint64_out_of_range scs lp 0 = 2 * lp
  /\ 2 * Z.max lp rp <= getPriority fused uint64_out_of_range scs lp rp
  /\ (getPriority fused uint64_out_of_range scs lp rp = 0 <->
      lp = 0 /\ rp = 0).
Proof.
  intros Hl Hr.
  assert (Hz : forall p,
             0 <= p < 2 ^ 31 -> getPriority_value fused 0 p = 2 * p).
  { intros p Hp. unfold getPriority_value.
    replace (Z.min 0 p) with 0 by lia. replace (Z.max 0 p) with p by lia.
    rewrite (Float64Facts.round_small (2 * p)) by lia.
    destruct fused; cbn; rewrite ?(Float64Facts.round_small 0) by lia;
      apply Float64Facts.round_small; lia. }
  assert (Hge : 2 * Z.max lp rp <= getPriority_value fused lp rp).
  { rewrite <- (Hz (Z.max lp rp)) by lia.
    apply getPriority_value_mono; lia. }
  rewrite !getPriority_in_range by (assumption || lia).
  replace (getPriority_value fused lp 0) with (getPriority_value fused 0 lp)
    by (unfold getPriority_value;
        by rewrite (Z.min_comm lp 0), (Z.max_comm lp 0)).
  rewrite !Hz by assumption.
  repeat split; try assumption; try lia.
  intros [-> ->]. rewrite Hz by lia. reflexivity.
Qed.

Lemma getPriority_zero_side_witness :
  getPriority true uint64_saturating snapshot_empty 0 2130706431
  = 2 * 2130706431
  /\ getPriority true uint64_saturating snapshot_empty 16777215 0
     = 2 * 16777215
  /\ 2 * Z.max 16777215 2130706431
     <= getPriority true uint64_saturating snapshot_empty 16777215 2130706431
  /\ (getPriority true uint64_saturating snapshot_empty 16777215 2130706431 = 0
      <-> 16777215 = 0 /\ 2130706431 = 0).
Proof.
  apply (getPriority_zero_side true uint64_saturating snapshot_empty
           16777215 2130706431); lia.
Defined.

(** ** More on the lookup *)

Lemma getCandidateStats_loop_spec (cs : list ICECandidateStats) (id : string) :
  (getCandidateStats_loop cs id ∈ cs
   /\ ID (getCandidateStats_loop cs id) = id)
  \/ (getCandidateStats_loop cs id = ICECandidateStats_zero
      /\ forall c, c ∈ cs -> ID c <> id).
Proof.
  induction cs as [|c cs IH]; simpl.
  - right. split; [reflexivity|]. intros c Hc. by apply elem_of_nil in Hc.
  - destruct (String.eqb_spec (ID c) id) as [Heq | Hne].
    + left. split; [left | exact Heq].
    + destruct IH as [[Hin Hid] | [Hz Hno]].
      * left. split; [by right | exact Hid].
      * right. split; [exact Hz|]. intros c' Hc'.
        apply elem_of_cons in Hc' as [-> | Hc']; [exact Hne | by apply Hno].
Qed.

Lemma getCandidateStats_loop_app
    (cs cs' : list ICECandidateStats) (id : string) :
  getCandidateStats_loop (cs ++ cs') id
  = if bool_decide (Exists (fun c => ID c = id) cs)
    then getCandidateStats_loop cs id
    else getCandidateStats_loop cs' id.
Proof.
  induction cs as [|c cs IH]; cbn [app getCandidateStats_loop].
  - rewrite bool_decide_eq_false_2; [reflexivity|]. by intros H%Exists_nil.
  - destruct (String.eqb_spec (ID c) id) as [Heq | Hne].
    + rewrite bool_decide_eq_true_2; [reflexivity|]. by left.
    + rewrite IH.
      destruct (decide (Exists (fun c => ID c = id) cs)) as [He | He].
      * rewrite !bool_decide_eq_true_2; [reflexivity | by right | exact He].
      * rewrite !bool_decide_eq_false_2; [reflexivity | | exact He].
        intros H. apply Exists_cons in H as [H | H];
          [by apply Hne | by apply He].
Qed.

Lemma getCandidateStats_loop_unique (cs : list ICECandidateStats)
    (c : ICECandidateStats) :
  NoDup (ID <$> cs) -> c ∈ cs -> getCandidateStats_loop cs (ID c) = c.
Proof.
  induction cs as [|c0 cs IH]; intros Hnd Hc.
  - by apply elem_of_nil in Hc.
  - rewrite fmap_cons in Hnd. apply NoDup_cons in Hnd as [Hnotin Hnd].
    simpl. destruct (String.eqb_spec (ID c0) (ID c)) as [Heq | Hne].
    + apply elem_of_cons in Hc as [-> | Hc]; [reflexivity|].
      exfalso. apply Hnotin. rewrite Heq. by apply list_elem_of_fmap_2.
    + apply elem_of_cons in Hc as [-> | Hc]; [by destruct Hne|].
      by apply IH.
Qed.

(** X4: [getCandidateStats] returns a stored record that carries the
    identifier asked for, or else the zero value, and the zero value only
    when no stored record carries the identifier; it never returns a
    record stored under another identifier. *)
Theorem getCandidateStats_hit_or_zero (scs : setCandidateStats) (id : string) :
  (getCandidateStats scs id ∈ candidates scs
   /\ ID (getCandidateStats scs id) = id)
  \/ (getCandidateStats scs id = ICECandidateStats_zero
      /\ forall c, c ∈ candidates scs -> ID c <> id).
Proof.
  unfold getCandidateStats. cbn [candidates].
  apply getCandidateStats_loop_spec.
Qed.

(** X5: when the identifiers of a snapshot are pairwise distinct, every
    stored record is found under its own identifier. *)
Theorem getCandidateStats_unique_found
    (scs : setCandidateStats) (c : ICECandidateStats) :
  NoDup (ID <$> candidates scs) -> c ∈ candidates scs ->
  getCandidateStats scs (ID c) = c.
Proof.
  unfold getCandidateStats. cbn [candidates].
  apply getCandidateStats_loop_unique.
Qed.

Lemma getCandidateStats_unique_found_witness :
  getCandidateStats scenario_snapshot "R1"
  = {| ID := "R1"; NetworkType := 0; Protocol := "";
       CandidateType := 0; IP := ""; Port := 0;
       RelayProtocol := ""; Priority := 200 |}.
Proof.
  apply (getCandidateStats_unique_found scenario_snapshot
           {| ID := "R1"; NetworkType := 0; Protocol := "";
              CandidateType := 0; IP := ""; Port := 0;
              RelayProtocol := ""; Priority := 200 |}).
  - simpl. apply NoDup_cons. split.
    + intros H. apply list_elem_of_singleton in H. discriminate.
    + apply NoDup_singleton.
  - simpl. right. left.
Defined.

Lemma getCandidateStats_loop_perm
    (cs cs' : list ICECandidateStats) (id : string) :
  NoDup (ID <$> cs) -> cs ≡ₚ cs' ->
  getCandidateStats_loop cs id = getCandidateStats_loop cs' id.
Proof.
  intros Hnd Hp.
  assert (Hnd' : NoDup (ID <$> cs')) by (by rewrite <- Hp).
  destruct (getCandidateStats_loop_spec cs id) as [[Hin Hid] | [Hz Hno]].
  - rewrite <- Hid at 2.
    symmetry. apply getCandidateStats_loop_unique; [exact Hnd'|].
    by rewrite <- Hp.
  - rewrite Hz. symmetry. apply getCandidateStats_loop_miss.
    intros c Hc. apply Hno. by rewrite Hp.
Qed.

(** X6: when the identifiers are pairwise distinct the order of the
    candidate collection does not matter: two snapshots whose candidates
    are permutations of each other answer every lookup alike. *)
Theorem getCandidateStats_order_irrelevant
    (scs scs' : setCandidateStats) (id : string) :
  NoDup (ID <$> candidates scs) -> candidates scs ≡ₚ candidates scs' ->
  getCandidateStats scs id = getCandidateStats scs' id.
Proof.
  unfold getCandidateStats. cbn [candidates].
  apply getCandidateStats_loop_perm.
Qed.

Lemma getCandidateStats_order_irrelevant_witness :
  getCandidateStats scenario_snapshot "R1"
  = getCandidateStats
      {| candidates := reverse (candidates scenario_snapshot);
         nominatedCandidatePairs := [] |} "R1".
Proof.
  apply (getCandidateStats_order_irrelevant scenario_snapshot
           {| candidates := reverse (candidates scenario_snapshot);
              nominatedCandidatePairs := [] |} "R1").
  - simpl. apply NoDup_cons. split.
    + intros H. apply list_elem_of_singleton in H. discriminate.
    + apply NoDup_singleton.
  - simpl. apply Permutation_swap.
Defined.

(** X7: a lookup in a collection that continues another one is answered
    by the first part when it holds the identifier, and by the rest
    otherwise: records added behind never replace an earlier one. *)
Theorem getCandidateStats_append
    (cs cs' : list ICECandidateStats) (pairs : list candidatePair)
    (id : string) :
  getCandidateStats
    {| candidates := cs ++ cs'; nominatedCandidatePairs := pairs |} id
  = if bool_decide (Exists (fun c => ID c = id) cs)
    then getCandidateStats
           {| candidates := cs; nominatedCandidatePairs := pairs |} id
    else getCandidateStats
           {| candidates := cs'; nominatedCandidatePairs := pairs |} id.
Proof.
  unfold getCandidateStats. cbn [candidates].
  apply getCandidateStats_loop_app.
Qed.

(** ** More on the snapshot and the reports *)

Lemma newSetCandidateStats_eq (stats : list Stats) :
  newSetCandidateStats stats
  = {| candidates := candidate_records stats;
       nominatedCandidatePairs := nominated_pairs stats |}.
Proof. unfold newSetCandidateStats. by rewrite newSetCandidateStats_fold. Qed.

Lemma report_eq_fields
    (fused : bool) (uint64_out_of_range : Float64.float64 -> Z)
    (scs : setCandidateStats) (ncp : candidatePair) :
  report fused uint64_out_of_range scs ncp
  = report_fields
      (getPriority fused uint64_out_of_range scs
         (Priority (getCandidateStats scs (localID ncp)))
         (Priority (getCandidateStats scs (remoteID ncp))))
      (getCandidateStats scs (localID ncp))
      (getCandidateStats scs (remoteID ncp)).
Proof. reflexivity. Qed.

Lemma scenario_stats_unique :
  NoDup (ID <$> candidates (newSetCandidateStats scenario_stats)).
Proof.
  cbn. apply NoDup_cons. split.
  - intros H. apply list_elem_of_singleton in H. discriminate.
  - apply NoDup_singleton.
Qed.

Lemma newSetCandidateStats_perm_aux (stats stats' : list Stats) :
  stats ≡ₚ stats' ->
  candidates (newSetCandidateStats stats)
  ≡ₚ candidates (newSetCandidateStats stats')
  /\ nominatedCandidatePairs (newSetCandidateStats stats)
     ≡ₚ nominatedCandidatePairs (newSetCandidateStats stats').
Proof.
  intros Hp. rewrite !newSetCandidateStats_eq. cbn.
  unfold candidate_records, nominated_pairs. by rewrite Hp.
Qed.

(** X8: the order in which the statistics are enumerated only shows in
    the order of the snapshot: two enumerations of the same records give
    the same candidates and the same nominated pairs, up to order. *)
Theorem newSetCandidateStats_permutation (stats stats' : list Stats) :
  stats ≡ₚ stats' ->
  candidates (newSetCandidateStats stats)
  ≡ₚ candidates (newSetCandidateStats stats')
  /\ nominatedCandidatePairs (newSetCandidateStats stats)
     ≡ₚ nominatedCandidatePairs (newSetCandidateStats stats').
Proof.
  intros Hp. rewrite !newSetCandidateStats_eq. cbn.
  unfold candidate_records, nominated_pairs. by rewrite Hp.
Qed.

Lemma newSetCandidateStats_permutation_witness :
  candidates (newSetCandidateStats scenario_stats)
  ≡ₚ candidates (newSetCandidateStats (reverse scenario_stats))
  /\ nominatedCandidatePairs (newSetCandidateStats scenario_stats)
     ≡ₚ nominatedCandidatePairs
          (newSetCandidateStats (reverse scenario_stats)).
Proof.
  apply (newSetCandidateStats_permutation scenario_stats
           (reverse scenario_stats)).
  symmetry. apply reverse_Permutation.
Defined.

Lemma newSetCandidateStats_lookup_aux
    (stats : list Stats) (c : ICECandidateStats) :
  NoDup (ID <$> candidates (newSetCandidateStats stats)) ->
  CandidateStats c ∈ stats ->
  getCandidateStats (newSetCandidateStats stats) (ID c) = c.
Proof.
  intros Hnd Hc. apply getCandidateStats_loop_unique; [exact Hnd|].
  rewrite newSetCandidateStats_eq. cbn. by apply candidate_records_elem.
Qed.

(** X9: a candidate record of the statistics is found again in the
    snapshot under its identifier, when the identifiers of the
    candidates are pairwise distinct. *)
Theorem newSetCandidateStats_lookup
    (stats : list Stats) (c : ICECandidateStats) :
  NoDup (ID <$> candidates (newSetCandidateStats stats)) ->
  CandidateStats c ∈ stats ->
  getCandidateStats (newSetCandidateStats stats) (ID c) = c.
Proof.
  intros Hnd Hc. unfold getCandidateStats.
  apply getCandidateStats_loop_unique; [exact Hnd|].
  rewrite newSetCandidateStats_eq. cbn. by apply candidate_records_elem.
Qed.

Lemma newSetCandidateStats_lookup_witness :
  getCandidateStats (newSetCandidateStats scenario_stats) "R1"
  = {| ID := "R1"; NetworkType := 0; Protocol := "";
       CandidateType := 0; IP := ""; Port := 0;
       RelayProtocol := ""; Priority := 200 |}.
Proof.
  apply (newSetCandidateStats_lookup scenario_stats
           {| ID := "R1"; NetworkType := 0; Protocol := "";
              CandidateType := 0; IP := ""; Port := 0;
              RelayProtocol := ""; Priority := 200 |}).
  - exact scenario_stats_unique.
  - apply list_elem_of_In. simpl. auto.
Defined.

(** X10: [getSetCandidates] returns as many nil values as there are
    nominated pairs, followed by the reports of the pairs in their
    order. *)
Theorem getSetCandidates_layout
    (fused : bool) (uint64_out_of_range : Float64.float64 -> Z)
    (scs : setCandidateStats) :
  getSetCandidates fused uint64_out_of_range scs
  = replicate (length (nominatedCandidatePairs scs)) INil
    ++ map (report fused uint64_out_of_range scs) (nominatedCandidatePairs scs).
Proof.
  unfold getSetCandidates.
  generalize (replicate (length (nominatedCandidatePairs scs)) INil).
  induction (nominatedCandidatePairs scs) as [|ncp l IH]; intros init; simpl.
  - by rewrite app_nil_r.
  - rewrite IH. by rewrite <- app_assoc.
Qed.

(** X11: so it returns as many values as there are nominated pairs only
    when there are none, and then it returns the empty slice. *)
Theorem getSetCandidates_count
    (fused : bool) (uint64_out_of_range : Float64.float64 -> Z)
    (scs : setCandidateStats) :
  (length (getSetCandidates fused uint64_out_of_range scs)
   = length (nominatedCandidatePairs scs)
   <-> nominatedCandidatePairs scs = [])
  /\ (getSetCandidates fused uint64_out_of_range scs = []
      <-> nominatedCandidatePairs scs = []).
Proof.
  pose proof (getSetCandidates_length fused uint64_out_of_range scs) as Hl.
  split; split.
  - intros H. apply length_zero_iff_nil. lia.
  - intros H. rewrite Hl, H. reflexivity.
  - intros H. apply length_zero_iff_nil. rewrite H in Hl. simpl in Hl. lia.
  - intros H. apply length_zero_iff_nil. rewrite Hl, H. reflexivity.
Qed.

(** X12: the values of the returned slice that are not nil are exactly
    one report per nominated pair, in the order of the pairs. *)
Theorem getSetCandidates_reports
    (fused : bool) (uint64_out_of_range : Float64.float64 -> Z)
    (scs : setCandidateStats) :
  ISlice <$> reports_of (getSetCandidates fused uint64_out_of_range scs)
  = report fused uint64_out_of_range scs <$> nominatedCandidatePairs scs.
Proof.
  rewrite getSetCandidates_eq. unfold reports_of. rewrite omap_app.
  assert (E : forall n, omap (fun v : iface =>
                match v with ISlice r => Some r | _ => None end)
                (replicate n INil) = []).
  { induction n as [|n IH]; [reflexivity | exact IH]. }
  rewrite E, app_nil_l.
  induction (nominatedCandidatePairs scs) as [|ncp l IH]; [reflexivity|].
  cbn. f_equal. exact IH.
Qed.

Lemma report_lookup_ext
    (fused : bool) (uint64_out_of_range : Float64.float64 -> Z)
    (scs scs' : setCandidateStats) (ncp : candidatePair) :
  (forall id, getCandidateStats scs id = getCandidateStats scs' id) ->
  report fused uint64_out_of_range scs ncp
  = report fused uint64_out_of_range scs' ncp.
Proof. intros H. rewrite !report_eq_fields, !H. reflexivity. Qed.

(** X13: with pairwise distinct candidate identifiers, the reports built
    from two enumerations of the same statistics are the same up to
    order. *)
Theorem reports_order_irrelevant
    (fused : bool) (uint64_out_of_range : Float64.float64 -> Z)
    (stats stats' : list Stats) :
  NoDup (ID <$> candidates (newSetCandidateStats stats)) ->
  stats ≡ₚ stats' ->
  reports_of (getSetCandidates fused uint64_out_of_range
                (newSetCandidateStats stats))
  ≡ₚ reports_of (getSetCandidates fused uint64_out_of_range
                   (newSetCandidateStats stats')).
Proof.
  intros Hnd Hp.
  destruct (newSetCandidateStats_perm_aux stats stats' Hp) as [Hc Hn].
  assert (E : forall scs,
             reports_of (getSetCandidates fused uint64_out_of_range scs)
             = reports_of (report fused uint64_out_of_range scs
                             <$> nominatedCandidatePairs scs)).
  { intros scs. rewrite getSetCandidates_eq. unfold reports_of.
    rewrite omap_app.
    assert (E0 : forall n, omap (fun v : iface =>
                   match v with ISlice r => Some r | _ => None end)
                   (replicate n INil) = []).
    { induction n as [|n IH]; [reflexivity | exact IH]. }
    by rewrite E0. }
  rewrite !E.
  rewrite (list_fmap_ext
             (report fused uint64_out_of_range (newSetCandidateStats stats))
             (report fused uint64_out_of_range (newSetCandidateStats stats'))
             (nominatedCandidatePairs (newSetCandidateStats stats))).
  - unfold reports_of. by rewrite Hn.
  - intros i ncp _. apply report_lookup_ext. intros id.
    by apply getCandidateStats_loop_perm.
Qed.

Lemma reports_order_irrelevant_witness :
  reports_of (getSetCandidates false uint64_saturating
                (newSetCandidateStats scenario_stats))
  ≡ₚ reports_of (getSetCandidates false uint64_saturating
                   (newSetCandidateStats (reverse scenario_stats))).
Proof.
  apply (reports_order_irrelevant false uint64_saturating scenario_stats
           (reverse scenario_stats)).
  - exact scenario_stats_unique.
  - symmetry. apply reverse_Permutation.
Defined.

(** X14: when the local identifier of a pair does not resolve, its
    report holds zero-valued local fields, and its priority is twice the
    priority of the record found for the remote identifier; when that
    one does not resolve either, the priority is zero and all candidate
    fields are zero-valued. *)
Theorem report_unresolved
    (fused : bool) (uint64_out_of_range : Float64.float64 -> Z)
    (scs : setCandidateStats) (ncp : candidatePair) :
  (forall c, c ∈ candidates scs -> ID c <> localID ncp) ->
  0 <= Priority (getCandidateStats scs (remoteID ncp)) < 2 ^ 31 ->
  report fused uint64_out_of_range scs ncp
  = report_fields
      (2 * Priority (getCandidateStats scs (remoteID ncp)))
      ICECandidateStats_zero
      (getCandidateStats scs (remoteID ncp)).
Proof.
  intros Hl Hr. rewrite report_eq_fields.
  rewrite (getCandidateStats_loop_miss (candidates scs) (localID ncp) Hl
           : getCandidateStats scs (localID ncp) = ICECandidateStats_zero).
  cbn [Priority ICECandidateStats_zero].
  rewrite getPriority_in_range by (assumption || lia).
  f_equal. unfold getPriority_value.
  set (p := Priority _) in *. clearbody p.
  replace (Z.min 0 p) with 0 by lia. replace (Z.max 0 p) with p by lia.
  rewrite (Float64Facts.round_small (2 * p)) by lia.
  destruct fused; cbn; rewrite ?(Float64Facts.round_small 0) by lia;
    apply Float64Facts.round_small; lia.
Qed.

Lemma report_unresolved_witness :
  report true uint64_saturating scenario_snapshot
    {| localID := "L9"; remoteID := "R1" |}
  = report_fields 400 ICECandidateStats_zero
      {| ID := "R1"; NetworkType := 0; Protocol := "";
         CandidateType := 0; IP := ""; Port := 0;
         RelayProtocol := ""; Priority := 200 |}.
Proof.
  apply (report_unresolved true uint64_saturating scenario_snapshot
           {| localID := "L9"; remoteID := "R1" |}).
  - intros c Hc. apply list_elem_of_In in Hc. simpl in Hc.
    destruct Hc as [<- | [<- | []]]; discriminate.
  - cbn. lia.
Defined.

(** X15: the connection state callback prints, for every nominated pair
    record of the statistics whose two candidates are among them, the
    report made of the two candidate records and of [getPriority] of
    their priorities, provided the candidate identifiers are pairwise
    distinct. *)
Theorem onICEConnectionStateChange_report
    (fused : bool) (uint64_out_of_range : Float64.float64 -> Z)
    (connectionState : string) (stats : list Stats)
    (t : ICECandidatePairStats) (lc rc : ICECandidateStats) :
  NoDup (ID <$> candidates (newSetCandidateStats stats)) ->
  PairStats t ∈ stats -> Nominated t = true ->
  CandidateStats lc ∈ stats -> ID lc = LocalCandidateID t ->
  CandidateStats rc ∈ stats -> ID rc = RemoteCandidateID t ->
  exists v,
    PrStats v
    ∈ onICEConnectionStateChange fused uint64_out_of_range
        connectionState stats
    /\ report_fields
         (getPriority fused uint64_out_of_range
            (newSetCandidateStats stats) (Priority lc) (Priority rc))
         lc rc
       ∈ v.
Proof.
  intros Hnd Ht Hn Hlc Hil Hrc Hir.
  eexists. split.
  { unfold onICEConnectionStateChange.
    apply elem_of_app. right. apply elem_of_app. right. left. }
  rewrite getSetCandidates_eq. apply elem_of_app. right.
  apply list_elem_of_fmap.
  exists {| localID := LocalCandidateID t; remoteID := RemoteCandidateID t |}.
  split.
  - rewrite report_eq_fields. cbn [localID remoteID].
    rewrite <- Hil, <- Hir.
    rewrite !(newSetCandidateStats_lookup_aux stats) by assumption.
    reflexivity.
  - rewrite newSetCandidateStats_eq. cbn.
    apply nominated_pairs_elem. by exists t.
Qed.

Lemma onICEConnectionStateChange_report_witness :
  exists v,
    PrStats v
    ∈ onICEConnectionStateChange false uint64_saturating
        "connected" scenario_stats
    /\ report_fields
         (getPriority false uint64_saturating
            (newSetCandidateStats scenario_stats) 100 200)
         {| ID := "L1"; NetworkType := 0; Protocol := "";
            CandidateType := 0; IP := ""; Port := 0;
            RelayProtocol := ""; Priority := 100 |}
         {| ID := "R1"; NetworkType := 0; Protocol := "";
            CandidateType := 0; IP := ""; Port := 0;
            RelayProtocol := ""; Priority := 200 |}
       ∈ v.
Proof.
  apply (onICEConnectionStateChange_report false uint64_saturating
           "connected" scenario_stats
           {| Nominated := true; LocalCandidateID := "L1";
              RemoteCandidateID := "R1" |}
           {| ID := "L1"; NetworkType := 0; Protocol := "";
              CandidateType := 0; IP := ""; Port := 0;
              RelayProtocol := ""; Priority := 100 |}
           {| ID := "R1"; NetworkType := 0; Protocol := "";
              CandidateType := 0; IP := ""; Port := 0;
              RelayProtocol := ""; Priority := 200 |}).
  - exact scenario_stats_unique.
  - apply list_elem_of_In. simpl. auto 10.
  - reflexivity.
  - apply list_elem_of_In. simpl. auto 10.
  - reflexivity.
  - apply list_elem_of_In. simpl. auto 10.
  - reflexivity.
Defined.

(** ** The send loops of the data channels *)

Lemma errors_Is_ErrClosedPipe (err : GoError) :
  errors_Is ErrClosedPipe err = bool_decide (err = ErrClosedPipe).
Proof. destruct err; reflexivity. Qed.

Lemma run_app (s : Session) (a b : list Action) :
  run s (a ++ b) = run (run s a) b.
Proof. apply fold_left_app. Qed.

Lemma run_steps (s : Session) (n m : nat) :
  run s (replicate (n + m) (Step 0%nat))
  = run (run s (replicate n (Step 0%nat))) (replicate m (Step 0%nat)).
Proof. by rewrite replicate_add, run_app. Qed.

Lemma run_at_rest (err : option GoError) (l : OpenLoop) (k : nat) :
  at_rest l ->
  run {| session_err := err; session_loops := [l] |}
    (replicate k (Step 0%nat))
  = {| session_err := err; session_loops := [l] |}.
Proof.
  intros Hl. induction k as [|k IH]; [reflexivity|].
  change (replicate (S k) (Step 0%nat))
    with ([Step 0%nat] ++ replicate k (Step 0%nat)).
  rewrite run_app.
  replace (run {| session_err := err; session_loops := [l] |} [Step 0%nat])
    with {| session_err := err; session_loops := [l] |}; [exact IH|].
  destruct l as [p n []]; unfold at_rest in Hl; simpl in Hl;
    try tauto; subst; reflexivity.
Qed.

(** The ticks at which the send succeeds take two steps each. *)
Lemma run_sending (pre rest : list (option GoError)) :
  Forall (fun r => r = None) pre ->
  forall (err : option GoError) (n : nat),
    run {| session_err := err;
           session_loops :=
             [{| loop_pending := pre ++ rest; loop_calls := n;
                 loop_pc := AtTick |}] |}
      (replicate (2 * length pre) (Step 0%nat))
    = {| session_err := if pre is [] then err else None;
         session_loops :=
           [{| loop_pending := rest; loop_calls := (n + length pre)%nat;
               loop_pc := AtTick |}] |}.
Proof.
  induction 1 as [|r pre -> _ IH]; intros err n.
  - simpl. by rewrite Nat.add_0_r.
  - replace (2 * length (None :: pre))%nat with (2 + 2 * length pre)%nat
      by (simpl; lia).
    rewrite run_steps.
    replace (run _ (replicate 2 (Step 0%nat)))
      with {| session_err := None;
              session_loops :=
                [{| loop_pending := pre ++ rest; loop_calls := S n;
                    loop_pc := AtTick |}] |} by reflexivity.
    rewrite IH. simpl. destruct pre; repeat f_equal; simpl; lia.
Qed.

(** A failing send takes the loop to its end in four steps. *)
Lemma run_failing (err0 : option GoError) (err : GoError)
    (rest : list (option GoError)) (n : nat) :
  run {| session_err := err0;
         session_loops :=
           [{| loop_pending := Some err :: rest; loop_calls := n;
               loop_pc := AtTick |}] |}
    (replicate 4 (Step 0%nat))
  = {| session_err := Some err;
       session_loops :=
         [{| loop_pending := rest; loop_calls := S n;
             loop_pc := if errors_Is ErrClosedPipe err then LoopReturned
                        else LoopPanicked (Some err) |}] |}.
Proof.
  destruct (errors_Is ErrClosedPipe err) eqn:His;
    cbn -[errors_Is]; rewrite His; reflexivity.
Qed.

(** While the sends succeed the loop is at the tick or at the test
    against nil, and has called [SendText] at every second step. *)
Lemma run_all_sent (sends : list (option GoError)) :
  Forall (fun r => r = None) sends ->
  forall (err : option GoError) (n k : nat),
    exists (err' : option GoError) (l : OpenLoop),
      run {| session_err := err;
             session_loops :=
               [{| loop_pending := sends; loop_calls := n;
                   loop_pc := AtTick |}] |}
        (replicate k (Step 0%nat))
      = {| session_err := err'; session_loops := [l] |}
      /\ (loop_pc l = AtTick \/ loop_pc l = AtNilTest /\ err' = None)
      /\ loop_calls l = (n + Nat.min (Nat.div2 (S k)) (length sends))%nat.
Proof.
  induction 1 as [|r sends -> _ IH]; intros err n k.
  - rewrite run_at_rest by reflexivity. eexists _, _.
    split; [reflexivity|]. simpl. split; [by left | lia].
  - destruct k as [|[|k]].
    + eexists _, _. split; [reflexivity|]. simpl. split; [by left | lia].
    + eexists _, _. split; [reflexivity|]. simpl. split; [by right | lia].
    + change (replicate (S (S k)) (Step 0%nat))
        with (replicate 2 (Step 0%nat) ++ replicate k (Step 0%nat)).
      rewrite run_app.
      replace (run _ (replicate 2 (Step 0%nat)))
        with {| session_err := None;
                session_loops :=
                  [{| loop_pending := sends; loop_calls := S n;
                      loop_pc := AtTick |}] |} by reflexivity.
      destruct (IH None (S n) k) as (err' & l & -> & Hpc & Hcalls).
      exists err', l. split; [reflexivity|]. split; [exact Hpc|].
      rewrite Hcalls. cbn [length Nat.div2]. lia.
Qed.

(** X16: in a session with a single data channel, where nothing but the
    loop of that channel assigns [err], the loop calls [SendText] once
    per tick up to the first error and never after it; at that error it
    returns when the error is [io.ErrClosedPipe] itself and panics with
    the error otherwise.  ([k] steps of the loop, two for a send that
    succeeds and up to four for the one that fails.) *)
Theorem alone_first_error
    (err0 : option GoError) (pre : list (option GoError)) (err : GoError)
    (rest : list (option GoError)) (k : nat) :
  Forall (fun r => r = None) pre ->
  (2 * length pre + 4 <= k)%nat ->
  alone err0 (pre ++ Some err :: rest) k
  = {| session_err := Some err;
       session_loops :=
         [{| loop_pending := rest; loop_calls := S (length pre);
             loop_pc := if bool_decide (err = ErrClosedPipe)
                        then LoopReturned
                        else LoopPanicked (Some err) |}] |}.
Proof.
  intros Hpre Hk. unfold alone, onOpen.
  replace k with (2 * length pre + (4 + (k - (2 * length pre + 4))))%nat
    by lia.
  rewrite !run_steps, (run_sending pre _ Hpre), run_failing.
  rewrite errors_Is_ErrClosedPipe. apply run_at_rest.
  unfold at_rest. simpl. by destruct (bool_decide _).
Qed.

Lemma alone_first_error_witness :
  alone None
    ([None; None] ++ Some (ErrNew "sctp: stream closed") :: [None]) 8
  = {| session_err := Some (ErrNew "sctp: stream closed");
       session_loops :=
         [{| loop_pending := [None]; loop_calls := 3;
             loop_pc :=
               LoopPanicked (Some (ErrNew "sctp: stream closed")) |}] |}.
Proof.
  apply (alone_first_error None [None; None] (ErrNew "sctp: stream closed")
           [None] 8).
  - repeat constructor.
  - simpl. lia.
Defined.

(** X17: in a session with a single data channel, where nothing but the
    loop of that channel assigns [err], an error that wraps
    [io.ErrClosedPipe] makes the loop panic: the call
    [errors.Is(io.ErrClosedPipe, err)] looks for [err] in the chain of
    the sentinel, which has none, where [errors.Is] with the arguments
    the other way round would find the sentinel in the chain of [err]. *)
Theorem alone_wrapped_closed_pipe
    (err0 : option GoError) (pre : list (option GoError)) (msg : string)
    (inner : GoError) (rest : list (option GoError)) (k : nat) :
  Forall (fun r => r = None) pre ->
  (2 * length pre + 4 <= k)%nat ->
  errors_Is inner ErrClosedPipe = true ->
  errors_Is (ErrWrap msg inner) ErrClosedPipe = true
  /\ errors_Is ErrClosedPipe (ErrWrap msg inner) = false
  /\ session_loops (alone err0 (pre ++ Some (ErrWrap msg inner) :: rest) k)
     = [{| loop_pending := rest; loop_calls := S (length pre);
           loop_pc := LoopPanicked (Some (ErrWrap msg inner)) |}].
Proof.
  intros Hpre Hk Hin. split; [|split].
  - cbn. rewrite Hin. reflexivity.
  - reflexivity.
  - unfold alone, onOpen.
    replace k with (2 * length pre + (4 + (k - (2 * length pre + 4))))%nat
      by lia.
    rewrite !run_steps, (run_sending pre _ Hpre), run_failing.
    rewrite run_at_rest by exact I. reflexivity.
Qed.

Lemma alone_wrapped_closed_pipe_witness :
  errors_Is (ErrWrap "send" ErrClosedPipe) ErrClosedPipe = true
  /\ errors_Is ErrClosedPipe (ErrWrap "send" ErrClosedPipe) = false
  /\ session_loops
       (alone None ([None] ++ Some (ErrWrap "send" ErrClosedPipe) :: []) 6)
     = [{| loop_pending := []; loop_calls := 2;
           loop_pc := LoopPanicked (Some (ErrWrap "send" ErrClosedPipe)) |}].
Proof.
  apply (alone_wrapped_closed_pipe None [None] "send" ErrClosedPipe [] 6).
  - repeat constructor.
  - simpl. lia.
  - reflexivity.
Defined.

(** X18: in a session with a single data channel, where nothing but the
    loop of that channel assigns [err], as long as no send fails the
    loop neither returns nor panics, it has called [SendText] once for
    every tick it has taken, and once the ticks are used up it waits
    with all of them sent. *)
Theorem alone_keeps_sending
    (err0 : option GoError) (sends : list (option GoError)) (k : nat) :
  Forall (fun r => r = None) sends ->
  exists l : OpenLoop,
    session_loops (alone err0 sends k) = [l]
    /\ (loop_pc l = AtTick \/ loop_pc l = AtNilTest)
    /\ loop_calls l = Nat.min (Nat.div2 (S k)) (length sends)
    /\ ((2 * length sends <= k)%nat ->
        l = {| loop_pending := []; loop_calls := length sends;
               loop_pc := AtTick |}).
Proof.
  intros Hsends. unfold alone, onOpen.
  destruct (run_all_sent sends Hsends err0 0 k)
    as (err' & l & Hrun & Hpc & Hcalls).
  exists l. rewrite Hrun. split; [reflexivity|]. split; [tauto|].
  split; [exact Hcalls|]. intros Hk.
  replace k with (2 * length sends + (k - 2 * length sends))%nat in Hrun
    by lia.
  rewrite run_steps in Hrun.
  rewrite <- (app_nil_r sends) in Hrun at 1.
  rewrite (run_sending sends [] Hsends) in Hrun.
  rewrite run_at_rest in Hrun by reflexivity.
  by injection Hrun as _ <-.
Qed.

Lemma alone_keeps_sending_witness :
  exists l : OpenLoop,
    session_loops (alone None [None; None; None] 7) = [l]
    /\ (loop_pc l = AtTick \/ loop_pc l = AtNilTest)
    /\ loop_calls l = Nat.min (Nat.div2 8) 3
    /\ ((2 * 3 <= 7)%nat ->
        l = {| loop_pending := []; loop_calls := 3; loop_pc := AtTick |}).
Proof.
  apply (alone_keeps_sending None [None; None; None] 7).
  repeat constructor.
Defined.

(** X23: with a second writer of [err] a loop acts on a value that is
    not the result of its own send.  When the loop of another data
    channel stores its error between the assignment and the test of a
    loop whose send succeeded, that loop returns or panics on the
    other's error; when another loop, or any other assignment, stores
    nil in that place, a loop whose send failed goes on to the next
    tick. *)
Theorem shared_err_race
    (e : GoError) (rest rest' : list (option GoError)) :
  session_loops
    (run {| session_err := None;
            session_loops :=
              [onOpen (None :: rest); onOpen (Some e :: rest')] |}
       [Step 0; Step 1; Step 0; Step 0; Step 0]%nat) !! 0%nat
  = Some {| loop_pending := rest; loop_calls := 1;
            loop_pc := if bool_decide (e = ErrClosedPipe) then LoopReturned
                       else LoopPanicked (Some e) |}
  /\ session_loops
       (run {| session_err := None;
               session_loops :=
                 [onOpen (Some e :: rest); onOpen (None :: rest')] |}
          [Step 0; Step 1; Step 0]%nat) !! 0%nat
     = Some {| loop_pending := rest; loop_calls := 1; loop_pc := AtTick |}
  /\ session_loops
       (run {| session_err := None;
               session_loops := [onOpen (Some e :: rest)] |}
          [Step 0%nat; Assign None; Step 0%nat]) !! 0%nat
     = Some {| loop_pending := rest; loop_calls := 1; loop_pc := AtTick |}.
Proof.
  split; [|split; reflexivity].
  rewrite <- errors_Is_ErrClosedPipe.
  destruct (errors_Is ErrClosedPipe e) eqn:His;
    cbn -[errors_Is]; rewrite His; reflexivity.
Qed.

(** ** More on the signaling handler *)

Ltac split_result :=
  match goal with
  | |- context [match ?x with _ => _ end] =>
      lazymatch x with
      | context [match _ with _ => _ end] => fail
      | _ => destruct x eqn:?
      end
  end.

Ltac run_serve :=
  unfold serve, doSignaling, call_or_panic, check_or_panic,
    recv_gatherComplete, Write, Header_Set, log, panic, park,
    mbind, mret, Handler_bind, Handler_ret;
  simpl; repeat (split_result; simpl).



(** X20: when the handler returns, the body of the response is the
    marshalled local description of the session as it is once the receive
    on [gatherComplete] has returned (the bytes [Write] accepted of it),
    and the header holds the JSON content type. *)
Theorem serve_returned
    `{C : Collaborators} (r_Body : bytes) (u : unit) (s : HandlerState) :
  serve r_Body = Returned u s ->
  exists pc0 pc response n,
    gatherComplete_recv pc0 = Some pc
    /\ json_Marshal (pc_LocalDescription pc) = inl response
    /\ conn_Write response = (n, None)
    /\ st_w s = {| header := content_type_json;
                   body := take n response |}.
Proof.
  run_serve; intros H; try discriminate H.
  injection H as _ <-. subst.
  eexists _, _, _, _. repeat split; eassumption.
Qed.

Lemma serve_returned_witness :
  exists pc0 pc response n,
    @gatherComplete_recv loopback pc0 = Some pc
    /\ @json_Marshal loopback (@pc_LocalDescription loopback pc) = inl response
    /\ @conn_Write loopback response = (n, None)
    /\ st_w (final_state (@serve loopback body_object))
       = {| header := content_type_json;
            body := take n response |}.
Proof.
  apply (@serve_returned loopback body_object ()
           (final_state (@serve loopback body_object))).
  reflexivity.
Defined.

(** X21: there is no timeout: when the receive on [gatherComplete] never
    returns, no run of the handler returns and none touches the response
    writer. *)
Theorem serve_never_gathered `{C : Collaborators} (r_Body : bytes) :
  (forall pc, gatherComplete_recv pc = None) ->
  st_w (final_state (serve r_Body)) = ResponseWriter_new
  /\ forall u s, serve r_Body <> Returned u s.
Proof.
  intros Hnever. run_serve;
    try match goal with
        | H : gatherComplete_recv _ = Some _ |- _ =>
            rewrite Hnever in H; discriminate H
        end;
    (split; [reflexivity | intros ? ? Hret; discriminate Hret]).
Qed.

Lemma serve_never_gathered_witness :
  st_w (final_state (@serve stalled body_object)) = ResponseWriter_new
  /\ forall u s, @serve stalled body_object <> Returned u s.
Proof.
  apply (@serve_never_gathered stalled body_object).
  intros pc. reflexivity.
Defined.

(** X22: a run that panics leaves the response writer untouched, without
    any call of [Write], unless the panic is that of [Write] itself: then
    the content type is set, the body holds the bytes [Write] accepted
    before it failed, and the panic carries the error of [Write]. *)
Theorem serve_panicked
    `{C : Collaborators} (r_Body : bytes) (e : error) (s : HandlerState) :
  serve r_Body = Panicked e s ->
  (st_w s = ResponseWriter_new /\ forall ok, Ev CWrite ok ∉ st_trace s)
  \/ (exists response n,
        conn_Write response = (n, Some e)
        /\ Ev CWrite false ∈ st_trace s
        /\ st_w s = {| header := content_type_json;
                       body := take n response |}).
Proof.
  run_serve; intros H; try discriminate H; injection H as <- <-; subst;
    first
      [ left; split; [reflexivity|];
        intros ok Hin; apply list_elem_of_In in Hin; simpl in Hin;
        intuition discriminate
      | right; eexists _, _; split; [eassumption|]; split; [|reflexivity];
        apply list_elem_of_In; simpl; auto 20 ].
Qed.

Lemma serve_panicked_witness :
  (st_w (final_state (@serve broken_pipe body_object)) = ResponseWriter_new
   /\ forall ok,
        Ev CWrite ok
        ∉ st_trace (final_state (@serve broken_pipe body_object)))
  \/ (exists response n,
        @conn_Write broken_pipe response
        = (n, Some "write: broken pipe"%string)
        /\ Ev CWrite false
           ∈ st_trace (final_state (@serve broken_pipe body_object))
        /\ st_w (final_state (@serve broken_pipe body_object))
           = {| header := content_type_json;
                body := take n response |}).
Proof.
  apply (@serve_panicked broken_pipe body_object
           "write: broken pipe"%string
           (final_state (@serve broken_pipe body_object))).
  reflexivity.
Defined.

(** A failed [Write] after one byte: the handler panics with one byte of
    the answer on the wire. *)
Example serve_broken_pipe_body :
  body (st_w (final_state (@serve broken_pipe body_object))) = [Byte.x7b]
  /\ phase (@serve broken_pipe body_object) = Failed.
Proof. split; reflexivity. Qed.
